(** * autodts-generator: the declaration bundler of [src/index.ts]

    A shallow embedding of [processTree], [filenameToMid], [getError],
    [getFilenames], [writeDeclaration] and [generate], and the properties of
    the bundle they produce.

    JavaScript strings are [string]s (one [ascii] per code unit), node
    positions are [Z], the closure-captured buffers of [generate] are a
    record threaded through the calls, the file system is a [gmap] from
    paths to contents, and the promise returned by [generate] is a value
    that settles once. Node's [path], [os] and the TypeScript compiler are
    collaborators of the program: they are taken as records of operations,
    and instantiated for the concrete runs. *)

From Stdlib Require Import ZArith Ascii String.
From stdpp Require Import base tactics option list strings gmap pretty.

Local Open Scope Z_scope.

(** ** JavaScript strings *)

Module JsString.

Definition length (s : string) : Z := Z.of_nat (String.length s).

(** The clamping of a relative index that [String.prototype.slice]
    applies to both of its arguments. *)
Definition clamp (len i : Z) : Z :=
  if i <? 0 then Z.max (len + i) 0 else Z.min i len.

(** [s.slice(start, end)]; [oend = None] is the one-argument call. *)
Definition slice (s : string) (start : Z) (oend : option Z) : string :=
  let len := length s in
  let from := clamp len start in
  let to := match oend with None => len | Some e => clamp len e end in
  String.substring (Z.to_nat from) (Z.to_nat (Z.max (to - from) 0)) s.

(** [s.charAt(0) === c] *)
Definition charAt0_is (c : ascii) (s : string) : bool :=
  match s with
  | String c' _ => bool_decide (c' = c)
  | EmptyString => false
  end.

(** [s.indexOf(t) === 0] *)
Definition startsWith (t s : string) : bool := String.prefix t s.

(** [s.slice(-5) === '.d.ts'] *)
Definition endsWith_d_ts (s : string) : bool :=
  bool_decide (slice s (-5) None = ".d.ts").

(** [s.replace(/c/g, r)] for a pattern that is the single literal
    character [c]. *)
Fixpoint replaceAllChar (c : ascii) (r : string) (s : string) : string :=
  match s with
  | EmptyString => EmptyString
  | String c' s' =>
      if bool_decide (c' = c) then r +:+ replaceAllChar c r s'
      else String c' (replaceAllChar c r s')
  end.

Fixpoint concat (l : list string) : string :=
  match l with
  | [] => ""
  | s :: l' => s +:+ concat l'
  end.

Fixpoint drop (n : nat) (s : string) : string :=
  match n, s with
  | S n', String _ s' => drop n' s'
  | _, _ => s
  end.

(** [s.indexOf(t) !== -1], used to state what a text contains. *)
Fixpoint includes (t s : string) : bool :=
  String.prefix t s ||
  match s with
  | EmptyString => false
  | String _ s' => includes t s'
  end.

(** The characters with a meaning of their own in the source of a
    regular expression, and the strings without any, which as a pattern
    match themselves and nothing else. *)
Definition syntaxCharacter (c : ascii) : bool :=
  includes (String c "") "^$\.*+?()[]{}|".

Fixpoint regexLiteral (s : string) : bool :=
  match s with
  | EmptyString => true
  | String c s' => negb (syntaxCharacter c) && regexLiteral s'
  end.

(** The string with [f] applied to each of its characters. *)
Fixpoint mapChars (f : ascii → ascii) (s : string) : string :=
  match s with
  | EmptyString => EmptyString
  | String c s' => String (f c) (mapChars f s')
  end.

(** [s.split(c)] for a separator of one character, and [l.join(sep)]. *)
Fixpoint split (c : ascii) (s : string) : list string :=
  match s with
  | EmptyString => [""]
  | String x s' =>
      let lines := split c s' in
      if bool_decide (x = c) then "" :: lines
      else match lines with
           | line :: rest => String x line :: rest
           | [] => [String x ""]
           end
  end.

Fixpoint join (sep : string) (l : list string) : string :=
  match l with
  | [] => ""
  | [s] => s
  | s :: l' => s +:+ sep +:+ join sep l'
  end.

End JsString.

(** ** The syntax tree handed over by the compiler *)

Inductive SyntaxKind :=
  | SourceFileKind
  | ExternalModuleReference
  | DeclareKeyword
  | StringLiteral
  | ExportDeclaration
  | ImportDeclaration
  | OtherKind (tag : nat).

Global Instance SyntaxKind_eq_dec : EqDecision SyntaxKind.
Proof. solve_decision. Defined.

(** A [ts.Node]: its kind, its span [pos, end) in the text of the unit, the
    [text] of a literal, and the children [ts.forEachChild] enumerates. *)
Unset Elimination Schemes.
Inductive Node :=
  mkNode (kind : SyntaxKind) (pos end_ : Z) (text : string)
         (children : list Node).
Set Elimination Schemes.

Definition kind (n : Node) : SyntaxKind := let 'mkNode k _ _ _ _ := n in k.
Definition pos (n : Node) : Z := let 'mkNode _ p _ _ _ := n in p.
Definition end_ (n : Node) : Z := let 'mkNode _ _ e _ _ := n in e.
Definition text (n : Node) : string := let 'mkNode _ _ _ t _ := n in t.
Definition children (n : Node) : list Node := let 'mkNode _ _ _ _ c := n in c.

(** [(<ts.ExternalModuleReference> node).expression]: the one child of an
    external module reference. *)
Definition expression (n : Node) : option Node := head (children n).

(** A [ts.SourceFile]. As a node it has kind [SourceFile]. *)
Record SourceFile := {
  fileName : string;
  sf_text : string;
  sf_pos : Z;
  sf_end : Z;
  sf_children : list Node;
  externalModuleIndicator : bool;
  referencedFiles : list string
}.

Definition asNode (sf : SourceFile) : Node :=
  mkNode SourceFileKind (sf_pos sf) (sf_end sf) "" (sf_children sf).

(** ** processTree *)

Definition Replacer := Node → option Node → option string.

Record Cursor := { code : string; cursorPosition : Z }.

Section processTree.
Variable sourceText : string.
Variable replacer : Replacer.

Definition skip (node : Node) (st : Cursor) : Cursor :=
  {| code := code st; cursorPosition := end_ node |}.

Definition readThrough (node : Node) (st : Cursor) : Cursor :=
  {| code := code st +:+
             JsString.slice sourceText (cursorPosition st) (Some (pos node));
     cursorPosition := pos node |}.

Fixpoint visit (node : Node) (parent : option Node) (st : Cursor) : Cursor :=
  let st := readThrough node st in
  match replacer node parent with
  | Some replacement =>
      skip node {| code := code st +:+ replacement;
                   cursorPosition := cursorPosition st |}
  | None =>
      let parent := Some node in
      match node with
      | mkNode _ _ _ _ cs =>
          fold_left (λ st child, visit child parent st) cs st
      end
  end.

Definition processTree_run (root : Node) : string :=
  let st := visit root None {| code := ""; cursorPosition := 0 |} in
  code st +:+ JsString.slice sourceText (cursorPosition st) None.

End processTree.

Definition processTree (sourceFile : SourceFile) (replacer : Replacer) : string :=
  processTree_run (sf_text sourceFile) replacer (asNode sourceFile).

(** ** Collaborators: Node's [path] and [os], the TypeScript compiler *)

(** The operations of Node's [path] module that the program calls.
    [resolve] takes its argument list; [join] is only called with two. *)
Record PathUtil := {
  sep : ascii;
  resolve : list string → string;
  normalize : string → string;
  dirname : string → string;
  join : string → string → string;
  relative : string → string → string
}.

(** A [ts.Diagnostic], with the line and character that
    [diagnostic.file.getLineAndCharacterOfPosition(diagnostic.start)]
    gives for it. *)
Record Diagnostic := {
  diag_fileName : string;
  diag_line : N;
  diag_character : N;
  diag_code : N;
  messageText : string
}.

(** What [program.emit(sourceFile, writeFile)] does: the calls it makes to
    [writeFile] (file name and data, in order), then its result. *)
Record EmitOutput := {
  written : list (string * string);
  emitSkipped : bool;
  diagnostics : list Diagnostic
}.

Record Program := {
  getSourceFiles : list SourceFile;
  emit : SourceFile → EmitOutput;
  getSemanticDiagnostics : SourceFile → list Diagnostic;
  getSyntacticDiagnostics : SourceFile → list Diagnostic;
  getDeclarationDiagnostics : SourceFile → list Diagnostic
}.

Record Compiler := {
  createProgram : list string → Program;
  createSourceFile : string → string → SourceFile
}.

Record Error := { err_name : string; err_message : string }.

(** [Error.prototype.toString] *)
Definition err_toString (e : Error) : string :=
  if bool_decide (err_name e = "") then err_message e
  else if bool_decide (err_message e = "") then err_name e
  else err_name e +:+ ": " +:+ err_message e.

(** The promise [generate] returns: it settles once, later calls of
    [resolve] and [reject] are ignored. *)
Inductive Promise :=
  | Pending
  | Resolved
  | Rejected (reason : Error).

Definition settle_resolve (p : Promise) : Promise :=
  match p with Pending => Resolved | _ => p end.

Definition settle_reject (e : Error) (p : Promise) : Promise :=
  match p with Pending => Rejected e | _ => p end.

(** The interface [Options]. [includes] is never read and [target] is only
    passed on to the compiler, so neither is kept. An optional field that
    is [undefined] is [None]. *)
Module Options.
Record t := {
  baseDir : string;
  files : list string;
  excludes : option (list string);
  externs : option (list string);
  eol : option string;
  indent : option string;
  main : option string;
  name : string;
  out : string
}.
End Options.

(** The world [generate] runs in. [unlink_error] is what [fs.unlink] passes
    to its callback (an [ENOENT] error where the file is not there);
    directory creation, opening and writing the streams are taken to
    succeed. *)
Record Env := {
  env_pathUtil : PathUtil;
  os_EOL : string;
  env_ts : Compiler;
  storage0 : gmap string string;
  unlink_error : option Error
}.

Definition quot : string := String "034"%char "".
Definition LF : string := String "010"%char "".
Definition TAB : string := String "009"%char "".

(** [`/// <reference path="${path}" />`] *)
Definition referenceDirective (path : string) : string :=
  "/// <reference path=" +:+ quot +:+ path +:+ quot +:+ " />".

(** ** filenameToMid *)

(** [pathUtil.sep] is one character, ['/'] or ['\\'], and the expression
    built from it matches exactly that character. *)
Definition filenameToMid (pathUtil : PathUtil) (filename : string) : string :=
  if bool_decide (sep pathUtil = "/"%char) then filename
  else JsString.replaceAllChar (sep pathUtil) "/" filename.

(** ** getError *)

Definition getError (diagnostics : list Diagnostic) : Error :=
  let message :=
    foldl (λ message diagnostic,
             message +:+
             LF +:+ diag_fileName diagnostic +:+
             "(" +:+ pretty (diag_line diagnostic + 1)%N +:+
             "," +:+ pretty (diag_character diagnostic + 1)%N +:+ "): " +:+
             "error TS" +:+ pretty (diag_code diagnostic) +:+ ": " +:+
             messageText diagnostic)
          "Declaration generation failed" diagnostics in
  {| err_name := "EmitterError"; err_message := message |}.

(** The line of the message for one diagnostic. *)
Definition diagnosticLine (diagnostic : Diagnostic) : string :=
  LF +:+ diag_fileName diagnostic +:+
  "(" +:+ pretty (diag_line diagnostic + 1)%N +:+
  "," +:+ pretty (diag_character diagnostic + 1)%N +:+ "): " +:+
  "error TS" +:+ pretty (diag_code diagnostic) +:+ ": " +:+
  messageText diagnostic.

(** ** getFilenames *)

Definition getFilenames (pathUtil : PathUtil) (baseDir : string)
    (files : list string) : list string :=
  map (λ filename,
         let resolvedFilename := resolve pathUtil [filename] in
         if JsString.startsWith baseDir resolvedFilename then resolvedFilename
         else resolve pathUtil [baseDir; filename])
      files.

(** ** The line indenter of [writeDeclaration]

    [content.replace(nonEmptyLineStart, '$&' + indent)] with
    [nonEmptyLineStart = new RegExp(eol + '(?!' + eol + '|$)', 'g')].
    The expression is read for an [eol] that stands for itself in a regular
    expression ([JsString.regexLiteral], as the newlines of every platform
    are): it matches every [eol] that is followed neither by another [eol]
    nor by the end of the text. The replacement string is expanded as
    [String.prototype.replace] does for an expression without groups. *)
Section indent.
Variables eol indent : string.

Definition nonEmptyLineStart (s : string) : bool :=
  String.prefix eol s &&
  let rest := JsString.drop (String.length eol) s in
  negb (String.prefix eol rest || bool_decide (rest = "")).

(** The replacement string expanded for one match: [$$] is a dollar sign,
    [$&] the matched text, [$`] the text before the match and [$'] the text
    after it; for want of groups every other [$] stands for itself. *)
Fixpoint substitution (template matched before after : string) : string :=
  match template with
  | EmptyString => EmptyString
  | String "$" (String "$" template') =>
      String "$" (substitution template' matched before after)
  | String "$" (String "&" template') =>
      matched +:+ substitution template' matched before after
  | String "$" (String "`" template') =>
      before +:+ substitution template' matched before after
  | String "$" (String "'" template') =>
      after +:+ substitution template' matched before after
  | String c template' =>
      String c (substitution template' matched before after)
  end.

(** The text from [s] on, [seen] being the text before it. [pending]
    counts the characters of [s] that belong to a match already replaced. *)
Fixpoint indentFrom (seen : string) (pending : nat) (s : string) : string :=
  match s with
  | EmptyString => EmptyString
  | String c rest =>
      let seen' := seen +:+ String c "" in
      match pending with
      | S pending' => indentFrom seen' pending' rest
      | O =>
          if nonEmptyLineStart s then
            substitution ("$&" +:+ indent) eol seen
              (JsString.drop (String.length eol) s) +:+
            indentFrom seen' (String.length eol - 1) rest
          else String c (indentFrom seen' O rest)
      end
  end.

Definition indentLines (content : string) : string :=
  indentFrom "" O content.
End indent.

(** ** generate *)

(** The variables [generate] closes over and updates, the storage, the
    streams it has created, and its promise. A stream created by
    [fs.createWriteStream] opens its file only after the executor has run:
    until then what is written to it is held in [streams], under its path,
    and [storage] does not have the file yet. [closeResolver] tells whether
    the listener of that name is still attached to the ['close'] event of
    [output]; [messages] is what [sendMessage] received, oldest first. *)
Record State := {
  outputString : string;
  outputRefString : string;
  wroteToOutputRef : bool;
  promise : Promise;
  closeResolver : bool;
  storage : gmap string string;
  streams : gmap string string;
  messages : list string
}.

Section generate.
Variable env : Env.
Variable options : Options.t.

Local Abbreviation pathUtil := (env_pathUtil env).
Local Abbreviation ts := (env_ts env).

Definition baseDir : string := resolve pathUtil [Options.baseDir options].

(** [options.eol || os.EOL] *)
Definition eol : string :=
  match Options.eol options with
  | Some e => if bool_decide (e = "") then os_EOL env else e
  | None => os_EOL env
  end.

(** [options.indent === undefined ? '\t' : options.indent] *)
Definition indent : string :=
  match Options.indent options with
  | None => TAB
  | Some i => i
  end.

Definition filenames : list string :=
  getFilenames pathUtil baseDir (Options.files options).

Definition excludesMap : gmap string bool :=
  match Options.excludes options with
  | Some excludes =>
      foldl (λ (m : gmap string bool) filename,
               <[filenameToMid pathUtil
                   (resolve pathUtil [baseDir; filename]) := true]> m)
            ∅ excludes
  | None => ∅
  end.

(** [outputRefPath], defined when [options.out] ends in ['.d.ts']; the
    stream [outputRef] is open exactly then. *)
Definition outputRefPath : option string :=
  if JsString.endsWith_d_ts (Options.out options)
  then Some (JsString.slice (Options.out options) 0 (Some (-5)) +:+ ".ref.d.ts")
  else None.

Definition program : Program := createProgram ts filenames.

(** *** Effects *)

Definition sendMessage (message : string) (st : State) : State :=
  {| outputString := outputString st;
     outputRefString := outputRefString st;
     wroteToOutputRef := wroteToOutputRef st;
     promise := promise st;
     closeResolver := closeResolver st;
     storage := storage st;
     streams := streams st;
     messages := messages st ++ [message] |}.

Definition appendOutput (s : string) (st : State) : State :=
  {| outputString := outputString st +:+ s;
     outputRefString := outputRefString st;
     wroteToOutputRef := wroteToOutputRef st;
     promise := promise st;
     closeResolver := closeResolver st;
     storage := storage st;
     streams := streams st;
     messages := messages st |}.

Definition prependOutput (s : string) (st : State) : State :=
  {| outputString := s +:+ outputString st;
     outputRefString := outputRefString st;
     wroteToOutputRef := wroteToOutputRef st;
     promise := promise st;
     closeResolver := closeResolver st;
     storage := storage st;
     streams := streams st;
     messages := messages st |}.

(** [outputRefString += s; wroteToOutputRef = true] *)
Definition appendOutputRef (s : string) (st : State) : State :=
  {| outputString := outputString st;
     outputRefString := outputRefString st +:+ s;
     wroteToOutputRef := true;
     promise := promise st;
     closeResolver := closeResolver st;
     storage := storage st;
     streams := streams st;
     messages := messages st |}.

Definition withPromise (f : Promise → Promise) (st : State) : State :=
  {| outputString := outputString st;
     outputRefString := outputRefString st;
     wroteToOutputRef := wroteToOutputRef st;
     promise := f (promise st);
     closeResolver := closeResolver st;
     storage := storage st;
     streams := streams st;
     messages := messages st |}.

Definition withStorage (f : gmap string string → gmap string string)
    (st : State) : State :=
  {| outputString := outputString st;
     outputRefString := outputRefString st;
     wroteToOutputRef := wroteToOutputRef st;
     promise := promise st;
     closeResolver := closeResolver st;
     storage := f (storage st);
     streams := streams st;
     messages := messages st |}.

Definition reject (e : Error) : State → State := withPromise (settle_reject e).

Definition withStreams (f : gmap string string → gmap string string)
    (st : State) : State :=
  {| outputString := outputString st;
     outputRefString := outputRefString st;
     wroteToOutputRef := wroteToOutputRef st;
     promise := promise st;
     closeResolver := closeResolver st;
     storage := storage st;
     streams := f (streams st);
     messages := messages st |}.

(** [fs.createWriteStream(path, ...)]: a stream for [path], with nothing
    written to it yet. Its file is not opened by the call. *)
Definition createWriteStream (path : string) : State → State :=
  withStreams (insert path "").

(** [stream.write(data)] on the stream created for [path]: the data is
    held by the stream. *)
Definition write (path data : string) : State → State :=
  withStreams (alter (λ held, held +:+ data) path).

(** The streams open, once the executor has run: each creates its file,
    or empties the one that is there, and writes to it what it holds. *)
Definition openStreams (st : State) : State :=
  {| outputString := outputString st;
     outputRefString := outputRefString st;
     wroteToOutputRef := wroteToOutputRef st;
     promise := promise st;
     closeResolver := closeResolver st;
     storage := streams st ∪ storage st;
     streams := ∅;
     messages := messages st |}.

(** [output.removeListener('close', closeResolver)] *)
Definition removeCloseResolver (st : State) : State :=
  {| outputString := outputString st;
     outputRefString := outputRefString st;
     wroteToOutputRef := wroteToOutputRef st;
     promise := promise st;
     closeResolver := false;
     storage := storage st;
     streams := streams st;
     messages := messages st |}.

(** [output.end()]: the stream closes, and its ['close'] event calls
    [closeResolver] if that is still listening. *)
Definition output_end (st : State) : State :=
  if closeResolver st then withPromise settle_resolve st else st.

(** *** writeDeclaration *)

Definition sourceModuleId (declarationFile : SourceFile) : string :=
  let filename := fileName declarationFile in
  Options.name options +:+
  filenameToMid pathUtil
    (JsString.slice filename (JsString.length baseDir) (Some (-5))).

(** The replacer [writeDeclaration] hands to [processTree]. *)
Definition declarationReplacer (sourceModuleId : string) : Replacer :=
  λ node parent,
    if bool_decide (kind node = ExternalModuleReference) then
      match expression node with
      | Some expression =>
          if JsString.charAt0_is "." (text expression) then
            Some (" require('" +:+
                  filenameToMid pathUtil
                    (join pathUtil (dirname pathUtil sourceModuleId)
                                   (text expression)) +:+
                  "')")
          else None
      | None => None
      end
    else if bool_decide (kind node = DeclareKeyword) then Some ""
    else if bool_decide (kind node = StringLiteral) &&
            match parent with
            | Some parent =>
                bool_decide (kind parent = ExportDeclaration) ||
                bool_decide (kind parent = ImportDeclaration)
            | None => false
            end then
      if JsString.charAt0_is "." (text node) then
        Some (" '" +:+
              filenameToMid pathUtil
                (join pathUtil (dirname pathUtil sourceModuleId) (text node)) +:+
              "'")
      else None
    else None.

(** The body of the [referencedFiles.forEach] callback. *)
Definition hoistReference (outputRefPath filename refPath : string)
    (st : State) : State :=
  let refFullPath :=
    resolve pathUtil
      [dirname pathUtil (resolve pathUtil [baseDir; filename]); refPath] in
  let refRelPath :=
    filenameToMid pathUtil
      (relative pathUtil (dirname pathUtil outputRefPath) refFullPath) in
  appendOutputRef (referenceDirective refRelPath +:+ eol) st.

Definition writeDeclaration (declarationFile : SourceFile) (st : State) : State :=
  let filename := fileName declarationFile in
  let sourceModuleId := sourceModuleId declarationFile in
  if externalModuleIndicator declarationFile then
    let st :=
      match outputRefPath with
      | Some outputRefPath =>
          foldl (λ st refPath, hoistReference outputRefPath filename refPath st)
                st (referencedFiles declarationFile)
      | None => st
      end in
    let st :=
      appendOutput ("declare module '" +:+ sourceModuleId +:+ "' {" +:+
                    eol +:+ indent) st in
    let content :=
      processTree declarationFile (declarationReplacer sourceModuleId) in
    let st := appendOutput (indentLines eol indent content) st in
    appendOutput (eol +:+ "}" +:+ eol) st
  else
    appendOutput (sf_text declarationFile) st.

(** The callback [writeFile] given to [program.emit]. *)
Definition writeFile (filename data : string) (st : State) : State :=
  if negb (JsString.endsWith_d_ts filename) then st
  else writeDeclaration (createSourceFile ts filename data) st.

(** *** The promise executor *)

(** One call of the callback of [program.getSourceFiles().some(...)]:
    the state after it, and whether it returned [true]. *)
Definition processSourceFile (sourceFile : SourceFile) (st : State)
    : State * bool :=
  if negb (JsString.startsWith baseDir
             (normalize pathUtil (fileName sourceFile))) then (st, false)
  else if bool_decide
            (excludesMap !!
               filenameToMid pathUtil (normalize pathUtil (fileName sourceFile))
             = Some true) then (st, false)
  else
    let st := sendMessage ("Processing " +:+ fileName sourceFile) st in
    if JsString.endsWith_d_ts (fileName sourceFile) then
      (writeDeclaration sourceFile st, false)
    else
      let emitOutput := emit program sourceFile in
      let st :=
        foldl (λ st w, writeFile w.1 w.2 st) st (written emitOutput) in
      if emitSkipped emitOutput ||
         negb (bool_decide (diagnostics emitOutput = [])) then
        (reject (getError
                   (diagnostics emitOutput
                      ++ getSemanticDiagnostics program sourceFile
                      ++ getSyntacticDiagnostics program sourceFile
                      ++ getDeclarationDiagnostics program sourceFile)) st,
         true)
      else (st, false).

(** [Array.prototype.some]: stop at the first call that returns [true]. *)
Fixpoint some (sourceFiles : list SourceFile) (st : State) : State :=
  match sourceFiles with
  | [] => st
  | sourceFile :: rest =>
      let '(st, stop) := processSourceFile sourceFile st in
      if stop then st else some rest st
  end.

Definition writeExterns (st : State) : State :=
  match Options.externs options with
  | Some externs =>
      foldl (λ st path,
               let st := sendMessage ("Writing external dependency " +:+ path) st in
               appendOutput (referenceDirective path +:+ eol) st)
            st externs
  | None => st
  end.

(** [if (options.main) { ... }]: the empty string is falsy. *)
Definition writeMain (st : State) : State :=
  match Options.main options with
  | Some main =>
      if bool_decide (main = "") then st
      else
        let st := appendOutput ("declare module '" +:+ Options.name options +:+
                                "' {" +:+ eol +:+ indent) st in
        let st := appendOutput ("import main = require('" +:+ main +:+ "');" +:+
                                eol +:+ indent) st in
        let st := appendOutput ("export = main;" +:+ eol) st in
        let st := appendOutput ("}" +:+ eol) st in
        sendMessage ("Aliased main module " +:+ Options.name options +:+
                     " to " +:+ main) st
  | None => st
  end.

(** From [if(wroteToOutputRef)] to the settling of the promise. The
    executor runs to its end before any stream has opened, so [fs.unlink],
    which it asks for, reaches the storage first: it deletes the auxiliary
    file that was there before the run, if it does not fail. Then the
    streams open, and the callback of [fs.unlink] runs. *)
Definition finish (st : State) : State :=
  let out := Options.out options in
  let st :=
    match wroteToOutputRef st, outputRefPath with
    | true, Some outputRefPath =>
        prependOutput (referenceDirective outputRefPath +:+ eol) st
    | true, None =>
        (* `${undefined}` *)
        prependOutput (referenceDirective "undefined" +:+ eol) st
    | false, _ => st
    end in
  let st := write out (outputString st) st in
  match outputRefPath with
  | Some outputRefPath =>
      let st :=
        if wroteToOutputRef st
        then write outputRefPath (outputRefString st) st else st in
      (* outputRef.end() *)
      if negb (wroteToOutputRef st) then
        (* fs.unlink(outputRefPath, ...) *)
        match unlink_error env with
        | Some err =>
            let st := openStreams st in
            let st :=
              sendMessage ("Error on unlink of '" +:+ quot +:+ outputRefPath +:+
                           quot +:+ "': " +:+ quot +:+ err_toString err +:+ quot)
                          st in
            let st := removeCloseResolver st in
            let st := output_end st in
            reject err st
        | None =>
            let st := withStorage (delete outputRefPath) st in
            let st := openStreams st in
            output_end st
        end
      else output_end (openStreams st)
  | None => output_end (openStreams st)
  end.

(** The state when the promise has settled. *)
Definition generate : State :=
  let st :=
    {| outputString := "";
       outputRefString := "";
       wroteToOutputRef := false;
       promise := Pending;
       closeResolver := false;
       storage := storage0 env;
       streams := ∅;
       messages := [] |} in
  (* mkdirp.sync(pathUtil.dirname(options.out)) *)
  let st := createWriteStream (Options.out options) st in
  let st :=
    match outputRefPath with
    | Some outputRefPath => createWriteStream outputRefPath st
    | None => st
    end in
  (* output.on('close', closeResolver) *)
  let st :=
    {| outputString := outputString st;
       outputRefString := outputRefString st;
       wroteToOutputRef := wroteToOutputRef st;
       promise := promise st;
       closeResolver := true;
       storage := storage st;
       streams := streams st;
       messages := messages st |} in
  let st := writeExterns st in
  let st := some (getSourceFiles program) st in
  let st := writeMain st in
  finish st.

End generate.

(** ** What the properties are stated with *)

(** *** Syntax trees as the parser builds them

    [wf lo hi n]: the span of [n] lies in [lo, hi], and its children lie
    inside it, one after the other. *)
Fixpoint wf (lo hi : Z) (n : Node) : bool :=
  match n with
  | mkNode _ p e _ cs =>
      (lo <=? p) && (p <=? e) && (e <=? hi) &&
      (fix wf_each (lo : Z) (cs : list Node) : bool :=
         match cs with
         | [] => true
         | c :: cs' => wf lo e c && wf_each (end_ c) cs'
         end) p cs
  end.

Fixpoint wf_children (lo hi : Z) (cs : list Node) : bool :=
  match cs with
  | [] => true
  | c :: cs' => wf lo hi c && wf_children (end_ c) hi cs'
  end.

Definition wf_sourceFile (sf : SourceFile) : bool :=
  wf 0 (sf_end sf) (asNode sf).

(** All nodes of a tree, the root first. *)
Fixpoint nodes (n : Node) : list Node :=
  n :: match n with mkNode _ _ _ _ cs => flat_map nodes cs end.

Section rewriting.
Variable sourceText : string.
Variable replacer : Replacer.

(** The nodes at which the replacer is asked and answers with a string:
    span and replacement, in the order of the text. *)
Fixpoint replaced (node : Node) (parent : option Node)
    : list (Z * Z * string) :=
  match replacer node parent with
  | Some replacement => [(pos node, end_ node, replacement)]
  | None =>
      match node with
      | mkNode _ _ _ _ cs => flat_map (λ child, replaced child (Some node)) cs
      end
  end.

(** The text from [cursor] on, with each span replaced by its string. *)
Fixpoint splice (cursor : Z) (spans : list (Z * Z * string)) : string :=
  match spans with
  | [] => JsString.slice sourceText cursor None
  | (p, e, replacement) :: spans' =>
      JsString.slice sourceText cursor (Some p) +:+ replacement +:+
      splice e spans'
  end.

(** The spans follow each other from [cursor] on, without overlap. *)
Fixpoint ordered (cursor : Z) (spans : list (Z * Z * string)) : Prop :=
  match spans with
  | [] => True
  | (p, e, _) :: spans' => cursor ≤ p ∧ p ≤ e ∧ ordered e spans'
  end.

(** The calls of [visit], each named by the path of child indices that
    leads from the root to its node. *)
Fixpoint visited (node : Node) (parent : option Node) (path : list nat)
    : list (list nat) :=
  path ::
  match replacer node parent with
  | Some _ => []
  | None =>
      match node with
      | mkNode _ _ _ _ cs =>
          (fix each (i : nat) (cs : list Node) : list (list nat) :=
             match cs with
             | [] => []
             | c :: cs' =>
                 visited c (Some node) (path ++ [i]) ++ each (S i) cs'
             end) O cs
      end
  end.

(** The calls of [visit] in which the replacer answers with a string. *)
Fixpoint fired (node : Node) (parent : option Node) (path : list nat)
    : list (list nat) :=
  match replacer node parent with
  | Some _ => [path]
  | None =>
      match node with
      | mkNode _ _ _ _ cs =>
          (fix each (i : nat) (cs : list Node) : list (list nat) :=
             match cs with
             | [] => []
             | c :: cs' =>
                 fired c (Some node) (path ++ [i]) ++ each (S i) cs'
             end) O cs
      end
  end.

(** The same for the children of a node, the first of which has
    index [i]. *)
Fixpoint visited_each (parent : option Node) (path : list nat) (i : nat)
    (cs : list Node) : list (list nat) :=
  match cs with
  | [] => []
  | c :: cs' =>
      visited c parent (path ++ [i]) ++ visited_each parent path (S i) cs'
  end.

Fixpoint fired_each (parent : option Node) (path : list nat) (i : nat)
    (cs : list Node) : list (list nat) :=
  match cs with
  | [] => []
  | c :: cs' =>
      fired c parent (path ++ [i]) ++ fired_each parent path (S i) cs'
  end.

End rewriting.

(** Two replacers give the same answer wherever [visit] asks: at [node],
    and, if that answer is null, at its children in the same way. Below a
    node with a non-null answer they may differ. *)
Fixpoint agreeAbove (r1 r2 : Replacer) (node : Node) (parent : option Node)
    : Prop :=
  r1 node parent = r2 node parent ∧
  match r1 node parent with
  | Some _ => True
  | None =>
      match node with
      | mkNode _ _ _ _ cs =>
          (fix each (cs : list Node) : Prop :=
             match cs with
             | [] => True
             | c :: cs' => agreeAbove r1 r2 c (Some node) ∧ each cs'
             end) cs
      end
  end.

(** [q] names a node strictly below the node named by [p]. *)
Definition below (p q : list nat) : Prop :=
  ∃ i rest, q = p ++ i :: rest.

(** The characters of the text that a list of spans covers, and the
    characters their replacements bring. *)
Fixpoint removed (spans : list (Z * Z * string)) : Z :=
  match spans with
  | [] => 0
  | (p, e, _) :: spans' => (e - p) + removed spans'
  end.

Fixpoint inserted (spans : list (Z * Z * string)) : Z :=
  match spans with
  | [] => 0
  | (_, _, replacement) :: spans' =>
      JsString.length replacement + inserted spans'
  end.

(** *** The effect of a stretch of the run on the buffers

    [advance out ref wrote sent rejection st] is [st] after [out] was
    appended to the main buffer, [ref] to the RefBuffer (with [wrote] telling
    whether a line was hoisted), the messages [sent] were sent and, if
    [rejection] holds an error, [reject] was called with it. *)
Definition nonEmpty {A} (l : list A) : bool :=
  match l with [] => false | _ :: _ => true end.

Definition rejecting (rejection : option Error) (p : Promise) : Promise :=
  match rejection with
  | Some e => settle_reject e p
  | None => p
  end.

Definition orElse {A} (a b : option A) : option A :=
  match a with Some _ => a | None => b end.

Definition advance (out ref : string) (wrote : bool) (sent : list string)
    (rejection : option Error) (st : State) : State :=
  {| outputString := outputString st +:+ out;
     outputRefString := outputRefString st +:+ ref;
     wroteToOutputRef := wroteToOutputRef st || wrote;
     promise := rejecting rejection (promise st);
     closeResolver := closeResolver st;
     storage := storage st;
     streams := streams st;
     messages := messages st ++ sent |}.

(** *** The bundle, unit by unit *)

Section bundle.
Variable env : Env.
Variable options : Options.t.

Local Abbreviation pathUtil := (env_pathUtil env).
Local Abbreviation eol := (eol env options).
Local Abbreviation indent := (indent options).

(** The wrapped block of an external-module unit. *)
Definition moduleBlock (d : SourceFile) : string :=
  "declare module '" +:+ sourceModuleId env options d +:+ "' {" +:+
  eol +:+ indent +:+
  indentLines eol indent
    (processTree d (declarationReplacer env (sourceModuleId env options d))) +:+
  eol +:+ "}" +:+ eol.

(** What one declaration unit contributes to the main buffer. *)
Definition unitBlock (d : SourceFile) : string :=
  if externalModuleIndicator d then moduleBlock d else sf_text d.

(** The directive line hoisted for one referenced path of a unit. *)
Definition hoistedLine (outputRefPath filename refPath : string) : string :=
  referenceDirective
    (filenameToMid pathUtil
       (relative pathUtil (dirname pathUtil outputRefPath)
          (resolve pathUtil
             [dirname pathUtil
                (resolve pathUtil [baseDir env options; filename]);
              refPath]))) +:+ eol.

(** The directive lines one declaration unit adds to the RefBuffer. *)
Definition hoisted (d : SourceFile) : list string :=
  if externalModuleIndicator d then
    match outputRefPath options with
    | Some outputRefPath =>
        map (hoistedLine outputRefPath (fileName d)) (referencedFiles d)
    | None => []
    end
  else [].

(** A source file that is neither outside the base directory nor
    excluded. *)
Definition selected (sourceFile : SourceFile) : bool :=
  JsString.startsWith (baseDir env options)
    (normalize pathUtil (fileName sourceFile)) &&
  negb (bool_decide
          (excludesMap env options !!
             filenameToMid pathUtil (normalize pathUtil (fileName sourceFile))
           = Some true)).

(** A selected source file whose emission is skipped or has
    diagnostics. *)
Definition failed (sourceFile : SourceFile) : bool :=
  selected sourceFile &&
  negb (JsString.endsWith_d_ts (fileName sourceFile)) &&
  (emitSkipped (emit (program env options) sourceFile) ||
   negb (bool_decide (diagnostics (emit (program env options) sourceFile) = []))).

(** The declaration units a selected source file hands to
    [writeDeclaration]. *)
Definition declarationsOf (sourceFile : SourceFile) : list SourceFile :=
  if JsString.endsWith_d_ts (fileName sourceFile) then [sourceFile]
  else
    map (λ w, createSourceFile (env_ts env) w.1 w.2)
        (filter (λ w, JsString.endsWith_d_ts w.1 = true)
                (written (emit (program env options) sourceFile))).

(** The declaration units of a list of source files, none of which
    fails. *)
Definition declarations (sourceFiles : list SourceFile) : list SourceFile :=
  flat_map declarationsOf (filter (λ sf, selected sf = true) sourceFiles).

(** The error a failing source file rejects the promise with. *)
Definition diagnosticError (sourceFile : SourceFile) : Error :=
  getError (diagnostics (emit (program env options) sourceFile)
              ++ getSemanticDiagnostics (program env options) sourceFile
              ++ getSyntacticDiagnostics (program env options) sourceFile
              ++ getDeclarationDiagnostics (program env options) sourceFile).

(** The source files up to and including the first that fails. *)
Fixpoint reached (sourceFiles : list SourceFile) : list SourceFile :=
  match sourceFiles with
  | [] => []
  | sourceFile :: rest =>
      sourceFile :: if failed sourceFile then [] else reached rest
  end.

(** The message sent for a selected source file. *)
Definition processing (sourceFile : SourceFile) : string :=
  "Processing " +:+ fileName sourceFile.

(** The first source file that fails, if one does. *)
Definition firstFailure (sourceFiles : list SourceFile) : option SourceFile :=
  List.find failed sourceFiles.

Definition externLines : string :=
  JsString.concat
    (map (λ path, referenceDirective path +:+ eol)
         (default [] (Options.externs options))).

(** The trailing block for [main], which must be a non-empty string. *)
Definition aliasBlock (main : string) : string :=
  "declare module '" +:+ Options.name options +:+ "' {" +:+ eol +:+ indent +:+
  "import main = require('" +:+ main +:+ "');" +:+ eol +:+ indent +:+
  "export = main;" +:+ eol +:+
  "}" +:+ eol.

Definition aliasPart : string :=
  match Options.main options with
  | Some main => if bool_decide (main = "") then "" else aliasBlock main
  | None => ""
  end.

(** The declaration units of the run: those of the source files up to
    and including the first that fails. *)
Definition units : list SourceFile :=
  declarations (reached (getSourceFiles (program env options))).

(** The directive lines of the run, in the order they are hoisted. *)
Definition hoistedLines : list string := flat_map hoisted units.

Definition failure : option SourceFile :=
  firstFailure (getSourceFiles (program env options)).

(** The directive that points at the auxiliary file, present when a
    directive line was hoisted. *)
Definition auxiliaryDirective : string :=
  match hoistedLines, outputRefPath options with
  | _ :: _, Some outputRefPath => referenceDirective outputRefPath +:+ eol
  | _, _ => ""
  end.

(** The streams the run creates, nothing written to them yet. *)
Definition opened : gmap string string :=
  match outputRefPath options with
  | Some outputRefPath => <[outputRefPath := ""]> (<[Options.out options := ""]> ∅)
  | None => <[Options.out options := ""]> ∅
  end.

(** The messages sent before the streams are written. *)
Definition sentMessages : list string :=
  map (λ path, "Writing external dependency " +:+ path)
      (default [] (Options.externs options))
  ++ map processing
       (filter (λ sf, selected sf = true)
               (reached (getSourceFiles (program env options))))
  ++ match Options.main options with
     | Some main =>
         if bool_decide (main = "") then []
         else ["Aliased main module " +:+ Options.name options +:+
               " to " +:+ main]
     | None => []
     end.

(** The state in which the executor reaches [if(wroteToOutputRef)]. *)
Definition collected : State :=
  {| outputString :=
       externLines +:+ JsString.concat (map unitBlock units) +:+ aliasPart;
     outputRefString := JsString.concat hoistedLines;
     wroteToOutputRef := nonEmpty hoistedLines;
     promise :=
       match failure with
       | Some sourceFile => Rejected (diagnosticError sourceFile)
       | None => Pending
       end;
     closeResolver := true;
     storage := storage0 env;
     streams := opened;
     messages := sentMessages |}.

(** The message sent when the deletion of the auxiliary file fails. *)
Definition unlinkMessage (path : string) (err : Error) : string :=
  "Error on unlink of '" +:+ quot +:+ path +:+ quot +:+ "': " +:+
  quot +:+ err_toString err +:+ quot.

(** Whether the run comes to delete the auxiliary file: it has opened
    one and hoisted nothing into it. *)
Definition unlinks (st : State) : bool :=
  match outputRefPath options with
  | Some _ => negb (wroteToOutputRef st)
  | None => false
  end.

(** The main and the auxiliary file after the run. *)
Definition mainFile (run : State) : option string :=
  storage run !! Options.out options.

Definition auxiliaryFile (run : State) : option string :=
  path ← outputRefPath options; storage run !! path.

End bundle.

(** *** Separators

    A name with its host separators normalized to forward slashes, as the
    specification has it: every character that is the separator becomes a
    forward slash, every other character stays. *)
Definition forwardSlashes (sep : ascii) (name : string) : string :=
  JsString.mapChars (λ c, if bool_decide (c = sep) then "/"%char else c) name.

(** *** What a run may be expected to do *)

Section expectations.
Variable env : Env.
Variable options : Options.t.

(** When a source file fails, the promise is rejected and the main file
    stays as empty as it was created. *)
Definition storesNothingOnFailure : Prop :=
  ∀ sourceFile, failure env options = Some sourceFile →
    (∃ e, promise (generate env options) = Rejected e)
    ∧ mainFile options (generate env options) = Some "".

(** The main file starts with the extern directives, the directive to the
    auxiliary file coming after them. *)
Definition externsFirst : Prop :=
  mainFile options (generate env options) =
  Some (externLines env options +:+ auxiliaryDirective env options +:+
        JsString.concat (map (unitBlock env options) (units env options)) +:+
        aliasPart env options).

(** When the auxiliary file is to be deleted and that fails, the promise
    is rejected with the error of the deletion. *)
Definition rejectsWithUnlinkError : Prop :=
  ∀ err, unlink_error env = Some err →
    is_Some (outputRefPath options) →
    wroteToOutputRef (generate env options) = false →
    promise (generate env options) = Rejected err.

(** The main buffer ends with the block that makes the package name an
    alias of the module [target]. *)
Definition aliasReexports (target : string) : Prop :=
  ∃ before,
    outputString (generate env options) =
    before +:+ aliasBlock env options target.

End expectations.

(** ** Node's [path.posix], for the concrete runs

    The operations on a host whose separator is ['/'], with the working
    directory that [resolve] falls back on as a parameter. *)
Module Posix.

Definition slash : ascii := "/"%char.

(** [path.split('/')] *)
Fixpoint split (path : string) : list string :=
  match path with
  | EmptyString => [""]
  | String c path' =>
      let segments := split path' in
      if bool_decide (c = slash) then "" :: segments
      else match segments with
           | segment :: rest => String c segment :: rest
           | [] => [String c ""]
           end
  end.

(** [segments.join('/')] *)
Fixpoint joinSegments (segments : list string) : string :=
  match segments with
  | [] => ""
  | [segment] => segment
  | segment :: rest => segment +:+ "/" +:+ joinSegments rest
  end.

(** The segment stack of [normalizeString], innermost segment first. *)
Definition pushSegment (allowAboveRoot : bool) (stack : list string)
    (segment : string) : list string :=
  if bool_decide (segment = "") || bool_decide (segment = ".") then stack
  else if bool_decide (segment = "..") then
    match stack with
    | top :: stack' =>
        if bool_decide (top = "..") then ".." :: stack else stack'
    | [] => if allowAboveRoot then [".."] else []
    end
  else segment :: stack.

Definition normalizeString (path : string) (allowAboveRoot : bool) : string :=
  joinSegments (rev (foldl (pushSegment allowAboveRoot) [] (split path))).

Definition isAbsolute (path : string) : bool :=
  JsString.charAt0_is slash path.

Definition hasTrailingSlash (path : string) : bool :=
  bool_decide (JsString.slice path (-1) None = "/").

Definition normalize (path : string) : string :=
  if bool_decide (path = "") then "."
  else
    let normalized := normalizeString path (negb (isAbsolute path)) in
    if bool_decide (normalized = "") then
      if isAbsolute path then "/"
      else if hasTrailingSlash path then "./" else "."
    else
      let normalized :=
        if hasTrailingSlash path then normalized +:+ "/" else normalized in
      if isAbsolute path then "/" +:+ normalized else normalized.

Definition join (a b : string) : string :=
  let parts := filter (λ s, s ≠ "") [a; b] in
  match parts with
  | [] => "."
  | _ => normalize (joinSegments parts)
  end.

Fixpoint dropWhile (f : ascii → bool) (l : list ascii) : list ascii :=
  match l with
  | c :: l' => if f c then dropWhile f l' else l
  | [] => []
  end.

(** The backward scan of [dirname] over the characters after the first:
    past the trailing slashes, then up to the slash before them. *)
Definition dirname (path : string) : string :=
  if bool_decide (path = "") then "."
  else
    let hasRoot := isAbsolute path in
    let fromEnd := rev (list_ascii_of_string (JsString.drop 1 path)) in
    let afterSlashes := dropWhile (λ c, bool_decide (c = slash)) fromEnd in
    let upToSlash :=
      dropWhile (λ c, negb (bool_decide (c = slash))) afterSlashes in
    match upToSlash with
    | [] => if hasRoot then "/" else "."
    | _ =>
        let end_ := Z.of_nat (List.length upToSlash) in
        if hasRoot && (end_ =? 1) then "//"
        else JsString.slice path 0 (Some end_)
    end.

Section cwd.
Variable cwd : string.

(** The loop of [resolve], from the last argument back to [cwd]:
    the path collected so far, and whether it is absolute. *)
Fixpoint resolveFrom (paths : list string) : string * bool :=
  match paths with
  | [] => ("", false)
  | path :: rest =>
      let '(resolvedPath, resolvedAbsolute) := resolveFrom rest in
      if resolvedAbsolute then (resolvedPath, resolvedAbsolute)
      else if bool_decide (path = "") then (resolvedPath, resolvedAbsolute)
      else (path +:+ "/" +:+ resolvedPath, isAbsolute path)
  end.

Definition resolve (paths : list string) : string :=
  let '(resolvedPath, resolvedAbsolute) := resolveFrom (cwd :: paths) in
  let resolvedPath := normalizeString resolvedPath (negb resolvedAbsolute) in
  if resolvedAbsolute then "/" +:+ resolvedPath
  else if bool_decide (resolvedPath = "") then "." else resolvedPath.

Fixpoint dropCommon (from to : list string) : list string * list string :=
  match from, to with
  | f :: from', t :: to' =>
      if bool_decide (f = t) then dropCommon from' to' else (from, to)
  | _, _ => (from, to)
  end.

Definition relative (from to : string) : string :=
  let from := resolve [from] in
  let to := resolve [to] in
  if bool_decide (from = to) then ""
  else
    let segments path := filter (λ s, s ≠ "") (split path) in
    let '(up, down) := dropCommon (segments from) (segments to) in
    joinSegments (map (λ _, "..") up ++ down).

Definition pathUtil : PathUtil :=
  Build_PathUtil slash resolve normalize dirname join relative.
End cwd.

End Posix.

(** ** A concrete package

    The package [pkg] lives in [/pkg], its sources in [/pkg/src]:
    [a.d.ts] holds global declarations, [b.ts] is a module that imports
    [./a], [c.d.ts] is a module with a reference directive, and the
    emission of [bad.ts] is skipped with one diagnostic. *)
Module Example.

Definition cwd : string := "/pkg".

Definition lib_d_ts : SourceFile :=
  {| fileName := "/usr/lib/typescript/lib.d.ts";
     sf_text := "declare var NaN: number;" +:+ LF;
     sf_pos := 0; sf_end := 25; sf_children := [];
     externalModuleIndicator := false;
     referencedFiles := [] |}.

Definition a_d_ts : SourceFile :=
  {| fileName := "/pkg/src/a.d.ts";
     sf_text := "declare var g: number;" +:+ LF;
     sf_pos := 0; sf_end := 23;
     sf_children :=
       [mkNode (OtherKind 3) 0 22 ""
          [mkNode DeclareKeyword 0 7 "" [];
           mkNode (OtherKind 5) 7 21 "" []];
        mkNode (OtherKind 6) 22 23 "" []];
     externalModuleIndicator := false;
     referencedFiles := [] |}.

Definition b_ts : SourceFile :=
  {| fileName := "/pkg/src/b.ts";
     sf_text := "import a = require('./a');" +:+ LF +:+
                "export var x = 1;" +:+ LF;
     sf_pos := 0; sf_end := 45; sf_children := [];
     externalModuleIndicator := true;
     referencedFiles := [] |}.

Definition b_d_ts_text : string :=
  "import a = require('./a');" +:+ LF +:+
  "export declare var x: number;" +:+ LF.

(** [b.d.ts] as the compiler emits and parses it. *)
Definition b_d_ts : SourceFile :=
  {| fileName := "/pkg/src/b.d.ts";
     sf_text := b_d_ts_text;
     sf_pos := 0; sf_end := 57;
     sf_children :=
       [mkNode (OtherKind 1) 0 26 ""
          [mkNode (OtherKind 2) 6 8 "a" [];
           mkNode ExternalModuleReference 10 25 ""
             [mkNode StringLiteral 19 24 "./a" []]];
        mkNode (OtherKind 3) 26 56 ""
          [mkNode (OtherKind 4) 26 33 "" [];
           mkNode DeclareKeyword 33 41 "" [];
           mkNode (OtherKind 5) 41 55 "" []];
        mkNode (OtherKind 6) 56 57 "" []];
     externalModuleIndicator := true;
     referencedFiles := [] |}.

Definition c_d_ts : SourceFile :=
  {| fileName := "/pkg/src/c.d.ts";
     sf_text := "/// <reference path=" +:+ quot +:+ "../typings/t.d.ts" +:+
                quot +:+ " />" +:+ LF +:+
                "export declare var c: number;" +:+ LF;
     sf_pos := 0; sf_end := 73;
     sf_children :=
       [mkNode (OtherKind 3) 0 72 ""
          [mkNode (OtherKind 4) 0 49 "" [];
           mkNode DeclareKeyword 49 57 "" [];
           mkNode (OtherKind 5) 57 71 "" []];
        mkNode (OtherKind 6) 72 73 "" []];
     externalModuleIndicator := true;
     referencedFiles := ["../typings/t.d.ts"] |}.

Definition bad_ts : SourceFile :=
  {| fileName := "/pkg/src/bad.ts";
     sf_text := "export var y: nope = 1;" +:+ LF;
     sf_pos := 0; sf_end := 24; sf_children := [];
     externalModuleIndicator := true;
     referencedFiles := [] |}.

Definition bad_diagnostic : Diagnostic :=
  {| diag_fileName := "/pkg/src/bad.ts";
     diag_line := 0; diag_character := 14; diag_code := 2304;
     messageText := "Cannot find name 'nope'." |}.

Definition emitTable (sourceFile : SourceFile) : EmitOutput :=
  if bool_decide (fileName sourceFile = "/pkg/src/b.ts") then
    {| written := [("/pkg/src/b.js", "exports.x = 1;" +:+ LF);
                   ("/pkg/src/b.d.ts", b_d_ts_text)];
       emitSkipped := false; diagnostics := [] |}
  else if bool_decide (fileName sourceFile = "/pkg/src/bad.ts") then
    {| written := []; emitSkipped := true; diagnostics := [bad_diagnostic] |}
  else {| written := []; emitSkipped := false; diagnostics := [] |}.

Definition compiler (sourceFiles : list SourceFile) : Compiler :=
  {| createProgram _ :=
       {| getSourceFiles := sourceFiles;
          emit := emitTable;
          getSemanticDiagnostics _ := [];
          getSyntacticDiagnostics _ := [];
          getDeclarationDiagnostics _ := [] |};
     createSourceFile filename data :=
       if bool_decide (filename = "/pkg/src/b.d.ts") then b_d_ts
       else {| fileName := filename; sf_text := data;
               sf_pos := 0; sf_end := JsString.length data;
               sf_children := [];
               externalModuleIndicator := false;
               referencedFiles := [] |} |}.

Definition env (sourceFiles : list SourceFile) (unlink_error : option Error)
    : Env :=
  {| env_pathUtil := Posix.pathUtil cwd;
     os_EOL := LF;
     env_ts := compiler sourceFiles;
     storage0 := ∅;
     unlink_error := unlink_error |}.

Definition options (files : list string) (externs : option (list string))
    (main : option string) : Options.t :=
  {| Options.baseDir := "src";
     Options.files := files;
     Options.excludes := None;
     Options.externs := externs;
     Options.eol := None;
     Options.indent := None;
     Options.main := main;
     Options.name := "pkg";
     Options.out := "out/pkg.d.ts" |}.

(** A replacer that rewrites string literals only. *)
Definition literalReplacer : Replacer :=
  λ node _, if bool_decide (kind node = StringLiteral) then Some "''" else None.

(** A replacer that fires on import declarations, on module references
    and on [declare] keywords. *)
Definition greedyReplacer : Replacer :=
  λ node _,
    if bool_decide (kind node = OtherKind 1) then Some "import a = b;"
    else if bool_decide (kind node = ExternalModuleReference) then Some "?"
    else if bool_decide (kind node = DeclareKeyword) then Some ""
    else None.

(** Options with the base directory and package name of a library. *)
Definition libOptions : Options.t :=
  {| Options.baseDir := "/pkg/src";
     Options.files := [];
     Options.excludes := None;
     Options.externs := None;
     Options.eol := None;
     Options.indent := None;
     Options.main := None;
     Options.name := "lib";
     Options.out := "out/lib.d.ts" |}.

Definition a_b_d_ts : SourceFile :=
  {| fileName := "/pkg/src/a/b.d.ts";
     sf_text := ""; sf_pos := 0; sf_end := 0; sf_children := [];
     externalModuleIndicator := true;
     referencedFiles := [] |}.

(** The package with [a.d.ts] and [b.ts]. *)
Definition abEnv : Env := env [lib_d_ts; a_d_ts; b_ts] None.
Definition abOptions : Options.t := options ["a.d.ts"; "b.ts"] None None.

(** The same with an empty [eol] and an empty [indent]. *)
Definition bareOptions : Options.t :=
  {| Options.baseDir := "src";
     Options.files := ["a.d.ts"; "b.ts"];
     Options.excludes := None;
     Options.externs := None;
     Options.eol := Some "";
     Options.indent := Some "";
     Options.main := None;
     Options.name := "pkg";
     Options.out := "out/pkg.d.ts" |}.

(** Only the alias of the main module is asked for. *)
Definition aliasEnv : Env := env [] None.
Definition aliasOptions : Options.t := options [] None (Some "./b").

(** [c.d.ts] hoists a directive, and two externs are given. *)
Definition externEnv : Env := env [lib_d_ts; c_d_ts; a_d_ts] None.
Definition externOptions : Options.t :=
  options ["c.d.ts"; "a.d.ts"] (Some ["x.d.ts"; "y.d.ts"]) None.

(** The same externs with nothing hoisted. *)
Definition plainEnv : Env := env [lib_d_ts; a_d_ts] None.
Definition plainOptions : Options.t :=
  options ["a.d.ts"] (Some ["x.d.ts"; "y.d.ts"]) None.

(** [bad.ts] fails after [a.d.ts] and before [c.d.ts]. *)
Definition badEnv (unlink_error : option Error) : Env :=
  env [lib_d_ts; a_d_ts; bad_ts; c_d_ts] unlink_error.
Definition badOptions : Options.t :=
  options ["a.d.ts"; "bad.ts"; "c.d.ts"] None None.

(** A replacer that answers, for a [declare] keyword, with the text of
    [b.d.ts] the keyword spans. *)
Definition echoReplacer : Replacer :=
  λ node _,
    if bool_decide (kind node = DeclareKeyword)
    then Some (JsString.slice b_d_ts_text (pos node) (Some (end_ node)))
    else None.

(** A module without relative imports and without [declare] keywords. *)
Definition i_d_ts : SourceFile :=
  {| fileName := "/pkg/src/i.d.ts";
     sf_text := "export interface I {" +:+ LF +:+ "}" +:+ LF;
     sf_pos := 0; sf_end := 23;
     sf_children :=
       [mkNode (OtherKind 7) 0 22 ""
          [mkNode (OtherKind 4) 0 6 "" [];
           mkNode (OtherKind 2) 16 18 "I" []];
        mkNode (OtherKind 6) 22 23 "" []];
     externalModuleIndicator := true;
     referencedFiles := [] |}.

(** The package of [externEnv] bundled into a file without the suffix
    [.d.ts]. *)
Definition txtOptions : Options.t :=
  {| Options.baseDir := "src";
     Options.files := ["c.d.ts"; "a.d.ts"];
     Options.excludes := None;
     Options.externs := None;
     Options.eol := None;
     Options.indent := None;
     Options.main := None;
     Options.name := "pkg";
     Options.out := "out/pkg.txt" |}.

(** A declaration file in [/pkg/src2], next to the base directory. *)
Definition x_d_ts : SourceFile :=
  {| fileName := "/pkg/src2/x.d.ts";
     sf_text := "declare var x: number;" +:+ LF;
     sf_pos := 0; sf_end := 23; sf_children := [];
     externalModuleIndicator := false;
     referencedFiles := [] |}.

(** The package of [abEnv] with an auxiliary file left over from an
    earlier run, which [fs.unlink] finds and deletes. *)
Definition staleEnv : Env :=
  {| env_pathUtil := Posix.pathUtil cwd;
     os_EOL := LF;
     env_ts := compiler [lib_d_ts; a_d_ts; b_ts];
     storage0 := {[ "out/pkg.ref.d.ts" := "stale" ]};
     unlink_error := None |}.

(** What [fs.unlink] reports for a file that is not there. *)
Definition ENOENT : Error :=
  {| err_name := "Error";
     err_message :=
       "ENOENT: no such file or directory, unlink 'out/pkg.ref.d.ts'" |}.

Definition EPERM : Error :=
  {| err_name := "Error";
     err_message := "EPERM: operation not permitted, unlink 'out/pkg.ref.d.ts'" |}.

End Example.


(** * Properties *)

(** ** Strings and slices *)

Lemma app_cons_s (x : ascii) (a b : string) :
  String x a +:+ b = String x (a +:+ b).
Proof. reflexivity. Qed.

Lemma app_nil_l_s (a : string) : "" +:+ a = a.
Proof. reflexivity. Qed.

Lemma app_assoc_s (a b c : string) : (a +:+ b) +:+ c = a +:+ b +:+ c.
Proof.
  induction a as [|x a IH]; [done|]. by rewrite !app_cons_s, IH.
Qed.

Lemma app_nil_r_s (a : string) : a +:+ "" = a.
Proof.
  induction a as [|x a IH]; [done|]. by rewrite app_cons_s, IH.
Qed.

Lemma length_app_s (a b : string) :
  String.length (a +:+ b) = (String.length a + String.length b)%nat.
Proof.
  induction a as [|x a IH]; [done|]. rewrite app_cons_s. cbn. by rewrite IH.
Qed.

Lemma substring_all (s : string) : String.substring 0 (String.length s) s = s.
Proof. induction s as [|x s IH]; cbn; [done | by rewrite IH]. Qed.

Lemma substring_zero (n : nat) (s : string) : String.substring n 0 s = "".
Proof.
  revert n; induction s as [|x s IH]; intros [|n]; cbn; auto.
Qed.

Lemma substring_split (s : string) (n a b : nat) :
  String.substring n (a + b) s =
  String.substring n a s +:+ String.substring (n + a) b s.
Proof.
  revert n a; induction s as [|x s IH]; intros n a.
  - destruct n, a, b; done.
  - destruct n as [|n]; cbn.
    + destruct a as [|a]; cbn; [done|].
      by rewrite app_cons_s, (IH 0%nat a).
    + apply IH.
Qed.

Lemma substring_beyond (s : string) (n m : nat) :
  (String.length s ≤ n)%nat → String.substring n m s = "".
Proof.
  revert n m; induction s as [|x s IH]; intros n m Hn.
  - by destruct n, m.
  - destruct n as [|n]; cbn in *; [lia|]. apply IH. lia.
Qed.

Lemma length_substring (s : string) (n m : nat) :
  (n + m ≤ String.length s)%nat → String.length (String.substring n m s) = m.
Proof.
  revert n m; induction s as [|x s IH]; intros n m H; cbn in H.
  - by destruct n, m; cbn in *; try lia.
  - destruct n as [|n]; cbn.
    + destruct m as [|m]; cbn; [done|]. rewrite (IH 0%nat m); [done | lia].
    + apply IH. lia.
Qed.

(** In range, [slice] is the text between the two positions. *)
Lemma slice_split (s : string) (a b : Z) (oc : option Z) :
  0 ≤ a → a ≤ b → (∀ c, oc = Some c → b ≤ c) →
  JsString.slice s a (Some b) +:+ JsString.slice s b oc = JsString.slice s a oc.
Proof.
  intros Ha Hab Hc. unfold JsString.slice, JsString.clamp, JsString.length.
  set (len := Z.of_nat (String.length s)).
  assert (0 ≤ len) by (unfold len; lia).
  destruct (Z.ltb_spec a 0); [lia|]. destruct (Z.ltb_spec b 0); [lia|].
  set (to := match oc with
             | Some e => if e <? 0 then Z.max (len + e) 0 else Z.min e len
             | None => len
             end).
  assert (Z.min b len ≤ to ≤ len) as Hto.
  { unfold to. destruct oc as [c|]; [|lia].
    specialize (Hc c eq_refl). destruct (Z.ltb_spec c 0); lia. }
  replace (Z.to_nat (Z.max (to - Z.min a len) 0))
    with (Z.to_nat (Z.max (Z.min b len - Z.min a len) 0)
          + Z.to_nat (Z.max (to - Z.min b len) 0))%nat by lia.
  rewrite substring_split. do 2 f_equal. lia.
Qed.

Lemma slice_all (s : string) : JsString.slice s 0 None = s.
Proof.
  unfold JsString.slice, JsString.clamp, JsString.length. cbn.
  rewrite Z.min_l, Z.sub_0_r, Z.max_l by lia. cbn.
  rewrite Nat2Z.id. apply substring_all.
Qed.

(** ** Syntax trees *)

(** Induction on a node with the property known for its children. *)
Lemma Node_ind (P : Node → Prop) :
  (∀ k p e t cs, Forall P cs → P (mkNode k p e t cs)) → ∀ n, P n.
Proof.
  intros step. fix IH 1. intros [k p e t cs]. apply step.
  induction cs as [|c cs IHcs]; constructor; [apply IH | apply IHcs].
Qed.

Lemma wf_unfold lo hi k p e t cs :
  wf lo hi (mkNode k p e t cs) =
  (lo <=? p) && (p <=? e) && (e <=? hi) && wf_children p e cs.
Proof.
  cbn [wf]. f_equal.
  match goal with
  | |- ?f p cs = _ => enough (∀ l, f l cs = wf_children l e cs) as H by apply H
  end.
  induction cs as [|c cs IH]; intros l; [done|]. cbn. by rewrite IH.
Qed.

Lemma wf_bounds lo hi n :
  wf lo hi n = true → lo ≤ pos n ∧ pos n ≤ end_ n ∧ end_ n ≤ hi.
Proof.
  destruct n as [k p e t cs]. rewrite wf_unfold. cbn.
  rewrite !andb_true_iff, !Z.leb_le. tauto.
Qed.

Lemma wf_tighten lo hi n : wf lo hi n = true → wf lo (end_ n) n = true.
Proof.
  destruct n as [k p e t cs]. rewrite !wf_unfold. cbn.
  rewrite !andb_true_iff, !Z.leb_le. intuition lia.
Qed.

Section rewriting_facts.
Variable sourceText : string.
Variable replacer : Replacer.

Local Abbreviation replaced := (replaced replacer).
Local Abbreviation splice := (splice sourceText).
Local Abbreviation visit := (visit sourceText replacer).

Lemma replaced_unfold k p e t cs parent :
  replaced (mkNode k p e t cs) parent =
  match replacer (mkNode k p e t cs) parent with
  | Some replacement => [(p, e, replacement)]
  | None => flat_map (λ child, replaced child (Some (mkNode k p e t cs))) cs
  end.
Proof. done. Qed.

Lemma visit_unfold k p e t cs parent st :
  visit (mkNode k p e t cs) parent st =
  let node := mkNode k p e t cs in
  let st := readThrough sourceText node st in
  match replacer node parent with
  | Some replacement =>
      skip node {| code := code st +:+ replacement;
                   cursorPosition := cursorPosition st |}
  | None => fold_left (λ st child, visit child (Some node) st) cs st
  end.
Proof. done. Qed.

Lemma ordered_weaken a b spans : a ≤ b → ordered b spans → ordered a spans.
Proof.
  destruct spans as [|[[p e] r] spans]; cbn; [done|].
  intros ? (? & ? & ?). split_and!; [lia | done..].
Qed.

(** Reading up to a position before the next span changes nothing. *)
Lemma splice_readThrough a b spans :
  0 ≤ a → a ≤ b → ordered b spans →
  JsString.slice sourceText a (Some b) +:+ splice b spans = splice a spans.
Proof.
  intros Ha Hab Hord. destruct spans as [|[[p e] r] spans]; cbn in *.
  - apply slice_split; [done..|]. by intros.
  - rewrite <- app_assoc_s. f_equal.
    apply slice_split; [done..|]. intros c [= <-]. lia.
Qed.

(** The replaced spans of a well-formed tree follow each other. *)
Lemma replaced_ordered node : ∀ parent lo hi rest,
  wf lo hi node = true → ordered hi rest →
  ordered lo (replaced node parent ++ rest).
Proof.
  induction node as [k p e t cs IH] using Node_ind.
  intros parent lo hi rest Hwf Hrest.
  pose proof (wf_bounds _ _ _ Hwf) as (Hlo & Hpe & Hhi); cbn in Hlo, Hpe, Hhi.
  rewrite replaced_unfold. destruct (replacer _ parent) as [r|].
  { cbn. split_and!; [done..|]. by apply ordered_weaken with hi. }
  rewrite wf_unfold, !andb_true_iff in Hwf. destruct Hwf as [_ Hcs].
  apply ordered_weaken with p; [done|].
  generalize (Some (mkNode k p e t cs)) as parent'. intros parent'.
  revert Hcs Hpe. generalize p as lo'.
  induction IH as [|c cs' IHc _ IHcs]; intros lo' Hcs Hle; cbn.
  - apply ordered_weaken with hi; [lia | done].
  - cbn in Hcs. rewrite andb_true_iff in Hcs. destruct Hcs as [Hc Hcs].
    rewrite <- app_assoc. apply IHc with (end_ c).
    + by apply wf_tighten with e.
    + apply IHcs; [done|]. apply wf_bounds in Hc. lia.
Qed.

Lemma children_ordered cs : ∀ parent lo hi rest,
  wf_children lo hi cs = true → lo ≤ hi → ordered hi rest →
  ordered lo (flat_map (λ child, replaced child parent) cs ++ rest).
Proof.
  induction cs as [|c cs IH]; intros parent lo hi rest Hcs Hle Hrest; cbn.
  - by apply ordered_weaken with hi.
  - cbn in Hcs. rewrite andb_true_iff in Hcs. destruct Hcs as [Hc Hcs].
    rewrite <- app_assoc. apply replaced_ordered with (end_ c).
    + by apply wf_tighten with hi.
    + apply IH with hi; [done | | done]. apply wf_bounds in Hc. lia.
Qed.

(** What one call of [visit] adds to the output is the text up to the
    next replaced span, spliced. *)
Lemma visit_splice node : ∀ parent st lo hi rest,
  wf lo hi node = true → 0 ≤ cursorPosition st → cursorPosition st ≤ lo →
  ordered hi rest →
  code (visit node parent st) +:+ splice (cursorPosition (visit node parent st)) rest
  = code st +:+ splice (cursorPosition st) (replaced node parent ++ rest)
  ∧ 0 ≤ cursorPosition (visit node parent st)
  ∧ cursorPosition (visit node parent st) ≤ end_ node.
Proof.
  induction node as [k p e t cs IH] using Node_ind.
  intros parent st lo hi rest Hwf H0 Hcur Hrest.
  pose proof (wf_bounds _ _ _ Hwf) as (Hlo & Hpe & Hhi); cbn in Hlo, Hpe, Hhi.
  pose proof (replaced_ordered _ parent _ _ _ Hwf Hrest) as Hord.
  rewrite visit_unfold, replaced_unfold in *. cbv zeta.
  destruct (replacer _ parent) as [r|]; cbn [skip readThrough code cursorPosition pos end_].
  { split; [|lia]. cbn. by rewrite !app_assoc_s. }
  rewrite wf_unfold, !andb_true_iff in Hwf. destruct Hwf as [_ Hcs].
  set (node := mkNode k p e t cs) in *.
  set (st1 := readThrough sourceText node st).
  assert (code st1 +:+ splice (cursorPosition st1)
            (flat_map (λ child, replaced child (Some node)) cs ++ rest)
          = code st +:+ splice (cursorPosition st)
              (flat_map (λ child, replaced child (Some node)) cs ++ rest)) as <-.
  { unfold st1, readThrough; cbn [code cursorPosition pos node].
    rewrite app_assoc_s. f_equal. unfold node at 1. cbn [pos].
    apply splice_readThrough; [lia | lia |].
    apply children_ordered with e; [done | done |].
    by apply ordered_weaken with hi. }
  assert (0 ≤ cursorPosition st1) as H1 by (cbn; lia).
  assert (cursorPosition st1 ≤ p) as H2 by (cbn; lia).
  assert (ordered e rest) as Hrest' by (by apply ordered_weaken with hi).
  clearbody st1 node. clear Hord Hcur H0 st.
  revert st1 H1 H2 Hcs Hpe. generalize p as lo'.
  induction IH as [|c cs' IHc _ IHcs]; intros lo' st1 H1 H2 Hcs Hle;
    cbn [fold_left flat_map].
  - split; [done | lia].
  - cbn in Hcs. rewrite andb_true_iff in Hcs. destruct Hcs as [Hc Hcs].
    pose proof (wf_bounds _ _ _ Hc) as (? & ? & ?).
    destruct (IHc (Some node) st1 lo' (end_ c)
                (flat_map (λ child, replaced child (Some node)) cs' ++ rest))
      as (Heq & Hc0 & Hc1); [by apply wf_tighten with e | done | done | |].
    { apply children_ordered with e; [done | lia | done]. }
    destruct (IHcs (end_ c) (visit c (Some node) st1))
      as (Heq' & ? & ?); [done | done | done | lia |].
    rewrite Heq', Heq, <- app_assoc. done.
Qed.

End rewriting_facts.

(** ** Which nodes are visited *)

Section visited_facts.
Variable replacer : Replacer.

Lemma visited_unfold k p e t cs parent path :
  visited replacer (mkNode k p e t cs) parent path =
  path :: match replacer (mkNode k p e t cs) parent with
          | Some _ => []
          | None => visited_each replacer (Some (mkNode k p e t cs)) path 0 cs
          end.
Proof.
  cbn [visited]. f_equal. destruct (replacer _ _); [done|].
  generalize (Some (mkNode k p e t cs)) as parent', O.
  induction cs as [|c cs IH]; intros parent' i; [done|].
  cbn [visited_each]. by rewrite <- IH.
Qed.

Lemma fired_unfold k p e t cs parent path :
  fired replacer (mkNode k p e t cs) parent path =
  match replacer (mkNode k p e t cs) parent with
  | Some _ => [path]
  | None => fired_each replacer (Some (mkNode k p e t cs)) path 0 cs
  end.
Proof.
  cbn [fired]. destruct (replacer _ _); [done|].
  generalize (Some (mkNode k p e t cs)) as parent', O.
  induction cs as [|c cs IH]; intros parent' i; [done|].
  cbn [fired_each]. by rewrite <- IH.
Qed.

(** Every call in which the replacer fires is a call of [visit]. *)
Lemma fired_visited node : ∀ parent path q,
  q ∈ fired replacer node parent path → q ∈ visited replacer node parent path.
Proof.
  induction node as [k p e t cs IH] using Node_ind. intros parent path q.
  rewrite fired_unfold, visited_unfold.
  destruct (replacer _ parent); [done|]. intros Hq. right. revert Hq.
  generalize (Some (mkNode k p e t cs)) as parent', O.
  induction IH as [|c cs' IHc _ IHcs]; intros parent' i; [done|].
  cbn [fired_each visited_each]. rewrite !elem_of_app. intros [?|?]; eauto.
Qed.

(** A call made from [node] is at or below [path]. *)
Lemma visited_prefix node : ∀ parent path q,
  q ∈ visited replacer node parent path → ∃ rest, q = path ++ rest.
Proof.
  induction node as [k p e t cs IH] using Node_ind. intros parent path q.
  rewrite visited_unfold. intros [->|Hq]%elem_of_cons.
  { exists []. by rewrite app_nil_r. }
  destruct (replacer _ parent); [by apply elem_of_nil in Hq|]. revert Hq.
  generalize (Some (mkNode k p e t cs)) as parent', O.
  induction IH as [|c cs' IHc _ IHcs]; intros parent' i.
  { by intros ?%elem_of_nil. }
  cbn [visited_each]. rewrite elem_of_app. intros [Hq|Hq]; [|by eauto].
  destruct (IHc _ _ _ Hq) as [rest ->]. exists (i :: rest).
  by rewrite <- app_assoc.
Qed.

(** A call made for the children from index [i] on is below [path],
    through a child of index at least [i]. *)
Lemma visited_each_prefix cs : ∀ parent path i q,
  q ∈ visited_each replacer parent path i cs →
  ∃ j rest, (i ≤ j)%nat ∧ q = path ++ j :: rest.
Proof.
  induction cs as [|c cs IH]; intros parent path i q.
  { by intros ?%elem_of_nil. }
  cbn [visited_each]. rewrite elem_of_app. intros [Hq|Hq].
  - destruct (visited_prefix _ _ _ _ Hq) as [rest ->].
    exists i, rest. split; [lia|]. by rewrite <- app_assoc.
  - destruct (IH _ _ _ _ Hq) as (j & rest & ? & ->).
    exists j, rest. split; [lia | done].
Qed.

Lemma fired_each_visited cs : ∀ parent path i q,
  q ∈ fired_each replacer parent path i cs →
  q ∈ visited_each replacer parent path i cs.
Proof.
  induction cs as [|c cs IH]; intros parent path i q; [done|].
  cbn [fired_each visited_each]. rewrite !elem_of_app.
  intros [?|?]; [left; by apply fired_visited | right; by apply IH].
Qed.

Lemma below_length p q : below p q → (length p < length q)%nat.
Proof. intros (i & rest & ->). rewrite length_app. cbn. lia. Qed.

(** No call of [visit] is made below a node at which the replacer
    fired. *)
Lemma fired_not_below node : ∀ parent path q p,
  q ∈ fired replacer node parent path →
  p ∈ visited replacer node parent path → ¬ below q p.
Proof.
  induction node as [k ps e t cs IH] using Node_ind. intros parent path q p.
  rewrite fired_unfold, visited_unfold.
  destruct (replacer _ parent).
  { intros ->%list_elem_of_singleton ->%list_elem_of_singleton Hb.
    apply below_length in Hb. lia. }
  intros Hq [->|Hp]%elem_of_cons.
  { apply fired_each_visited, visited_each_prefix in Hq
      as (j & rest & _ & ->).
    intros Hb%below_length. rewrite length_app in Hb. cbn in Hb. lia. }
  revert Hq Hp. generalize (Some (mkNode k ps e t cs)) as parent', O.
  induction IH as [|c cs' IHc _ IHcs]; intros parent' i.
  { by intros ?%elem_of_nil. }
  cbn [fired_each visited_each]. rewrite !elem_of_app.
  intros [Hq|Hq] [Hp|Hp].
  - by apply (IHc _ _ _ _ Hq Hp).
  - apply fired_visited, visited_prefix in Hq as [r ->].
    apply visited_each_prefix in Hp as (j & r' & Hj & ->).
    intros (x & rest & Heq). rewrite <- !app_assoc in Heq.
    apply app_inv_head in Heq. cbn in Heq. injection Heq as -> _. lia.
  - apply fired_each_visited, visited_each_prefix in Hq
      as (j & r & Hj & ->).
    apply visited_prefix in Hp as [r' ->].
    intros (x & rest & Heq). rewrite <- !app_assoc in Heq.
    apply app_inv_head in Heq. cbn in Heq. injection Heq as -> _. lia.
  - by apply (IHcs _ _ Hq Hp).
Qed.

End visited_facts.

(** ** The tree rewriter *)

(** [visit] asks the replacer nowhere below a node with a non-null
    answer. *)
Lemma visit_agreeAbove sourceText r1 r2 node : ∀ parent st,
  agreeAbove r1 r2 node parent →
  visit sourceText r1 node parent st = visit sourceText r2 node parent st.
Proof.
  induction node as [k p e t cs IH] using Node_ind. intros parent st.
  rewrite !visit_unfold. cbn [agreeAbove]. intros [Heq Hcs].
  cbv zeta. rewrite <- Heq. destruct (r1 _ parent); [done|]. clear Heq.
  generalize (readThrough sourceText (mkNode k p e t cs) st) as st'.
  revert Hcs. generalize (Some (mkNode k p e t cs)) as parent'.
  induction IH as [|c cs' IHc _ IHcs]; intros parent' Hcs st'; [done|].
  destruct Hcs as [Hc Hcs]. cbn [fold_left]. rewrite (IHc _ _ Hc).
  by apply IHcs.
Qed.

Lemma nodes_unfold k p e t cs :
  nodes (mkNode k p e t cs) = mkNode k p e t cs :: flat_map nodes cs.
Proof. done. Qed.

Lemma replaced_none replacer node : ∀ parent,
  (∀ n parent', n ∈ nodes node → replacer n parent' = None) →
  replaced replacer node parent = [].
Proof.
  induction node as [k p e t cs IH] using Node_ind. intros parent Hnone.
  rewrite replaced_unfold, Hnone by (rewrite nodes_unfold; left).
  assert (∀ c n parent', c ∈ cs → n ∈ nodes c → replacer n parent' = None)
    as Hcs.
  { intros c n parent' Hc Hn. apply Hnone. rewrite nodes_unfold. right.
    apply list_elem_of_In, in_flat_map. exists c.
    by rewrite <- !list_elem_of_In. }
  clear Hnone. generalize (Some (mkNode k p e t cs)) as parent'.
  induction IH as [|c cs' IHc _ IHcs]; intros parent'; [done|].
  cbn [flat_map]. rewrite IHc, IHcs; [done | |].
  - intros c' n q Hc'. apply Hcs. by right.
  - intros n q. apply Hcs. by left.
Qed.

(** What [processTree] returns for a well-formed unit: its text with the
    replaced spans spliced out. *)
Lemma processTree_replaced sourceFile replacer :
  wf_sourceFile sourceFile = true →
  processTree sourceFile replacer =
  splice (sf_text sourceFile) 0 (replaced replacer (asNode sourceFile) None).
Proof.
  intros Hwf. unfold processTree, processTree_run.
  destruct (visit_splice (sf_text sourceFile) replacer (asNode sourceFile)
              None {| code := ""; cursorPosition := 0 |} 0 (sf_end sourceFile) [])
    as (Heq & _ & _); [done | done | done | done |].
  cbn [splice] in Heq. rewrite Heq. cbn [code cursorPosition].
  by rewrite app_nil_r, app_nil_l_s.
Qed.

(** C2. For a unit whose tree is well formed (spans nested and in text
    order, as the parser builds them) and a replacer that returns null for
    every node of that tree, [processTree] returns the text of the unit
    unchanged. *)
Theorem processTree_identity (sourceFile : SourceFile) (replacer : Replacer) :
  wf_sourceFile sourceFile = true →
  (∀ node parent, node ∈ nodes (asNode sourceFile) → replacer node parent = None) →
  processTree sourceFile replacer = sf_text sourceFile.
Proof.
  intros Hwf Hnone. rewrite processTree_replaced by done.
  rewrite replaced_none by done. cbn [splice]. apply slice_all.
Qed.

(** A replacer that rewrites string literals only, on a unit without
    any. *)
Lemma processTree_identity_witness :
  wf_sourceFile Example.a_d_ts = true
  ∧ processTree Example.a_d_ts Example.literalReplacer = sf_text Example.a_d_ts.
Proof.
  assert (wf_sourceFile Example.a_d_ts = true) as Hwf by (vm_compute; reflexivity).
  split; [exact Hwf|].
  apply (processTree_identity Example.a_d_ts Example.literalReplacer Hwf).
  intros node parent Hnode. apply list_elem_of_In in Hnode. cbn in Hnode.
  intuition subst; reflexivity.
Defined.

(** C3. For a unit whose tree is well formed, the output of [processTree]
    is the text of the unit in which the span of every node at which the
    replacer is asked and answers with a string is replaced by that string,
    once, and everything outside these spans is kept, in order; the spans
    do not overlap; no call of [visit] is made for a node below one at
    which the replacer answered with a string, and what the replacer would
    answer there has no effect on the output. *)
Theorem processTree_spliced (sourceFile : SourceFile) (replacer : Replacer) :
  wf_sourceFile sourceFile = true →
  processTree sourceFile replacer =
    splice (sf_text sourceFile) 0 (replaced replacer (asNode sourceFile) None)
  ∧ ordered 0 (replaced replacer (asNode sourceFile) None)
  ∧ (∀ q p, q ∈ fired replacer (asNode sourceFile) None [] →
            p ∈ visited replacer (asNode sourceFile) None [] →
            ¬ below q p)
  ∧ (∀ replacer', agreeAbove replacer replacer' (asNode sourceFile) None →
                  processTree sourceFile replacer' =
                  processTree sourceFile replacer).
Proof.
  intros Hwf. split_and!.
  - by apply processTree_replaced.
  - rewrite <- (app_nil_r (replaced _ _ _)).
    by apply replaced_ordered with (sf_end sourceFile).
  - intros q p. apply fired_not_below.
  - intros replacer' Hagree. unfold processTree, processTree_run.
    by rewrite (visit_agreeAbove _ _ _ _ _ _ Hagree).
Qed.

(** [b.d.ts] under a replacer that fires on the import declaration, on its
    module reference and on the [declare] keyword. *)
Lemma processTree_spliced_witness :
  wf_sourceFile Example.b_d_ts = true
  ∧ processTree Example.b_d_ts Example.greedyReplacer =
      splice (sf_text Example.b_d_ts) 0
        (replaced Example.greedyReplacer (asNode Example.b_d_ts) None)
  ∧ ordered 0 (replaced Example.greedyReplacer (asNode Example.b_d_ts) None)
  ∧ (∀ q p, q ∈ fired Example.greedyReplacer (asNode Example.b_d_ts) None [] →
            p ∈ visited Example.greedyReplacer (asNode Example.b_d_ts) None [] →
            ¬ below q p)
  ∧ (∀ replacer',
       agreeAbove Example.greedyReplacer replacer' (asNode Example.b_d_ts) None →
       processTree Example.b_d_ts replacer' =
       processTree Example.b_d_ts Example.greedyReplacer).
Proof.
  assert (wf_sourceFile Example.b_d_ts = true) as Hwf by (vm_compute; reflexivity).
  split; [exact Hwf|].
  exact (processTree_spliced Example.b_d_ts Example.greedyReplacer Hwf).
Defined.

(** The module reference lies below the import declaration, so it is not
    visited, and its replacement is not in the output. *)
Example processTree_greedy :
  processTree Example.b_d_ts Example.greedyReplacer =
    "import a = b;" +:+ LF +:+ "export var x: number;" +:+ LF
  ∧ replaced Example.greedyReplacer (asNode Example.b_d_ts) None =
      [(0, 26, "import a = b;"); (33, 41, "")]
  ∧ visited Example.greedyReplacer (asNode Example.b_d_ts) None [] =
      [[]; [0]; [1]; [1; 0]; [1; 1]; [1; 2]; [2]]%nat
  ∧ fired Example.greedyReplacer (asNode Example.b_d_ts) None [] =
      [[0]; [1; 1]]%nat.
Proof. vm_compute. done. Qed.

(** ** The buffers along the run *)

Lemma concat_app_s (l1 l2 : list string) :
  JsString.concat (l1 ++ l2) = JsString.concat l1 +:+ JsString.concat l2.
Proof.
  induction l1 as [|s l1 IH]; [done|]. cbn [app JsString.concat].
  by rewrite IH, app_assoc_s.
Qed.

Lemma nonEmpty_app {A} (l1 l2 : list A) :
  nonEmpty (l1 ++ l2) = nonEmpty l1 || nonEmpty l2.
Proof. by destruct l1. Qed.

Lemma nonEmpty_false {A} (l : list A) : nonEmpty l = false ↔ l = [].
Proof. by destruct l. Qed.

Lemma rejecting_rejecting a b p :
  rejecting b (rejecting a p) = rejecting (orElse a b) p.
Proof. by destruct a, b, p. Qed.

Lemma advance_id st : advance "" "" false [] None st = st.
Proof.
  destruct st. unfold advance; cbn.
  by rewrite !app_nil_r_s, orb_false_r, app_nil_r.
Qed.

Lemma advance_advance o1 r1 w1 m1 j1 o2 r2 w2 m2 j2 st :
  advance o2 r2 w2 m2 j2 (advance o1 r1 w1 m1 j1 st) =
  advance (o1 +:+ o2) (r1 +:+ r2) (w1 || w2) (m1 ++ m2) (orElse j1 j2) st.
Proof.
  unfold advance; cbn.
  by rewrite !app_assoc_s, orb_assoc, rejecting_rejecting, app_assoc.
Qed.

Section generate_facts.
Variable env : Env.
Variable options : Options.t.

Lemma appendOutput_advance s st :
  appendOutput s st = advance s "" false [] None st.
Proof.
  unfold appendOutput, advance; cbn.
  by rewrite app_nil_r_s, orb_false_r, app_nil_r.
Qed.

Lemma sendMessage_advance m st :
  sendMessage m st = advance "" "" false [m] None st.
Proof.
  unfold sendMessage, advance; cbn. by rewrite !app_nil_r_s, orb_false_r.
Qed.

Lemma appendOutputRef_advance s st :
  appendOutputRef s st = advance "" s true [] None st.
Proof.
  unfold appendOutputRef, advance; cbn.
  by rewrite app_nil_r_s, orb_true_r, app_nil_r.
Qed.

Lemma reject_advance e st : reject e st = advance "" "" false [] (Some e) st.
Proof.
  unfold reject, withPromise, advance; cbn.
  by rewrite !app_nil_r_s, orb_false_r, app_nil_r.
Qed.

Lemma hoist_advance path filename refs : ∀ st,
  foldl (λ st refPath, hoistReference env options path filename refPath st)
        st refs
  = advance "" (JsString.concat (map (hoistedLine env options path filename) refs))
            (nonEmpty refs) [] None st.
Proof.
  induction refs as [|r refs IH]; intros st; cbn [foldl map JsString.concat nonEmpty].
  - by rewrite advance_id.
  - rewrite IH. unfold hoistReference. rewrite appendOutputRef_advance.
    rewrite advance_advance. unfold hoistedLine. cbn [orElse app].
    by rewrite app_nil_l_s.
Qed.

(** [writeDeclaration] appends the block of the unit to the main buffer
    and its hoisted lines to the RefBuffer. *)
Lemma writeDeclaration_advance d st :
  writeDeclaration env options d st =
  advance (unitBlock env options d) (JsString.concat (hoisted env options d))
          (nonEmpty (hoisted env options d)) [] None st.
Proof.
  unfold writeDeclaration, unitBlock, hoisted, moduleBlock.
  destruct (externalModuleIndicator d).
  - rewrite !appendOutput_advance.
    destruct (outputRefPath options) as [path|].
    + rewrite hoist_advance, !advance_advance. cbn [orElse app].
      assert (∀ refs : list string,
                nonEmpty (map (hoistedLine env options path (fileName d)) refs)
                = nonEmpty refs) as -> by (by intros []).
      by rewrite !app_assoc_s, !app_nil_r_s, !orb_false_r.
    + rewrite !advance_advance. cbn [orElse app JsString.concat nonEmpty].
      by rewrite !app_assoc_s.
  - by rewrite appendOutput_advance.
Qed.

Lemma writeFile_advance ws : ∀ st,
  foldl (λ st w, writeFile env options w.1 w.2 st) st ws =
  let ds := map (λ w, createSourceFile (env_ts env) w.1 w.2)
                (filter (λ w, JsString.endsWith_d_ts w.1 = true) ws) in
  advance (JsString.concat (map (unitBlock env options) ds))
          (JsString.concat (flat_map (hoisted env options) ds))
          (nonEmpty (flat_map (hoisted env options) ds)) [] None st.
Proof.
  induction ws as [|[filename data] ws IH]; intros st; cbn [foldl].
  - cbn. by rewrite advance_id.
  - rewrite IH. cbv zeta. rewrite filter_cons. unfold writeFile. cbn [fst snd].
    destruct (JsString.endsWith_d_ts filename) eqn:Hd.
    + rewrite decide_True by done. cbn [negb map flat_map JsString.concat].
      rewrite writeDeclaration_advance, advance_advance. cbn [orElse app].
      by rewrite concat_app_s, nonEmpty_app.
    + rewrite decide_False by done. cbn [negb].
      done.
Qed.

Lemma declarations_app l1 l2 :
  declarations env options (l1 ++ l2) =
  declarations env options l1 ++ declarations env options l2.
Proof. unfold declarations. by rewrite filter_app, flat_map_app. Qed.

Lemma selected_filter sf :
  filter (λ sf, selected env options sf = true) [sf] =
  if selected env options sf then [sf] else [].
Proof.
  rewrite filter_cons, filter_nil. destruct (selected env options sf).
  - by rewrite decide_True.
  - by rewrite decide_False.
Qed.

Lemma declarations_single sf :
  declarations env options [sf] =
  if selected env options sf then declarationsOf env options sf else [].
Proof.
  unfold declarations. rewrite selected_filter.
  destruct (selected env options sf); cbn [flat_map]; [|done].
  by rewrite app_nil_r.
Qed.

Lemma failed_selected sf :
  failed env options sf = true → selected env options sf = true.
Proof. unfold failed. rewrite !andb_true_iff. tauto. Qed.

Lemma processSourceFile_advance sf st :
  processSourceFile env options sf st =
  (let ds := declarations env options [sf] in
   advance (JsString.concat (map (unitBlock env options) ds))
           (JsString.concat (flat_map (hoisted env options) ds))
           (nonEmpty (flat_map (hoisted env options) ds))
           (if selected env options sf then [processing sf] else [])
           (if failed env options sf then Some (diagnosticError env options sf)
            else None) st,
   failed env options sf).
Proof.
  cbv zeta. rewrite declarations_single.
  unfold processSourceFile, failed, selected.
  destruct (JsString.startsWith _ _); cbn [negb andb];
    [|by rewrite advance_id].
  destruct (bool_decide (excludesMap env options !! _ = Some true));
    cbn [negb andb]; [by rewrite advance_id|].
  rewrite sendMessage_advance. unfold declarationsOf, processing.
  destruct (JsString.endsWith_d_ts (fileName sf)); cbn [negb andb].
  { rewrite writeDeclaration_advance, advance_advance.
    cbn [map flat_map JsString.concat orElse app].
    by rewrite !app_nil_r_s, app_nil_r. }
  rewrite writeFile_advance. cbv zeta. rewrite advance_advance.
  cbn [orElse app orb].
  destruct (emitSkipped _ || _).
  - rewrite reject_advance, advance_advance. unfold diagnosticError.
    cbn [orElse]. by rewrite !app_nil_r_s, app_nil_r, orb_false_r.
  - done.
Qed.

(** The loop over the source files: the blocks and hoisted lines of the
    units reached, and the rejection by the first file that fails. *)
Lemma some_advance sfs : ∀ st,
  some env options sfs st =
  let ds := declarations env options (reached env options sfs) in
  advance (JsString.concat (map (unitBlock env options) ds))
          (JsString.concat (flat_map (hoisted env options) ds))
          (nonEmpty (flat_map (hoisted env options) ds))
          (map processing
               (filter (λ sf, selected env options sf = true)
                       (reached env options sfs)))
          (diagnosticError env options <$> firstFailure env options sfs) st.
Proof.
  induction sfs as [|sf sfs IH]; intros st; cbv zeta.
  { cbn. by rewrite advance_id. }
  cbn [some reached]. rewrite processSourceFile_advance. cbv zeta.
  unfold firstFailure. cbn [find].
  destruct (failed env options sf) eqn:Hf.
  - rewrite selected_filter, (failed_selected _ Hf). done.
  - rewrite IH. cbv zeta. rewrite advance_advance. cbn [orElse].
    change (sf :: reached env options sfs)
      with ([sf] ++ reached env options sfs).
    rewrite declarations_app, filter_app, selected_filter.
    rewrite !map_app, flat_map_app, !concat_app_s, nonEmpty_app.
    by destruct (selected env options sf).
Qed.

Lemma writeExterns_advance st :
  writeExterns env options st =
  advance (externLines env options) "" false
          (map (λ path, "Writing external dependency " +:+ path)
               (default [] (Options.externs options)))
          None st.
Proof.
  unfold writeExterns, externLines.
  destruct (Options.externs options) as [externs|]; cbn [default];
    [|by rewrite advance_id].
  revert st. induction externs as [|path externs IH]; intros st.
  { cbn. by rewrite advance_id. }
  cbn [foldl map JsString.concat]. rewrite IH.
  rewrite sendMessage_advance, appendOutput_advance, !advance_advance.
  cbn [orElse app orb]. by rewrite !app_nil_r_s, app_nil_l_s.
Qed.

Lemma writeMain_advance st :
  writeMain env options st =
  advance (aliasPart env options) "" false
          (match Options.main options with
           | Some main =>
               if bool_decide (main = "") then []
               else ["Aliased main module " +:+ Options.name options +:+
                     " to " +:+ main]
           | None => []
           end)
          None st.
Proof.
  unfold writeMain, aliasPart, aliasBlock.
  destruct (Options.main options) as [main|]; [|by rewrite advance_id].
  destruct (bool_decide (main = "")); [by rewrite advance_id|].
  rewrite sendMessage_advance, !appendOutput_advance, !advance_advance.
  cbn [orElse app orb]. by rewrite !app_assoc_s, !app_nil_r_s.
Qed.

End generate_facts.

(** ** The end of the run *)

Lemma length_slice_suffix (s : string) :
  JsString.slice s (-5) None = ".d.ts" → (5 ≤ String.length s)%nat.
Proof.
  unfold JsString.slice, JsString.clamp, JsString.length. cbn.
  intros H. destruct (le_lt_dec 5 (String.length s)) as [|Hlt]; [done|].
  exfalso. apply (f_equal String.length) in H. cbn in H.
  rewrite Z.max_r in H by lia. cbn in H. rewrite Z.sub_0_r, Z.max_l in H by lia.
  rewrite Nat2Z.id, substring_all in H. lia.
Qed.

Lemma length_slice_stem (s : string) :
  (5 ≤ String.length s)%nat →
  String.length (JsString.slice s 0 (Some (-5))) = (String.length s - 5)%nat.
Proof.
  intros H. unfold JsString.slice, JsString.clamp, JsString.length. cbn.
  rewrite length_substring; lia.
Qed.

(** The auxiliary file is never the main file. *)
Lemma outputRefPath_ne_out options path :
  outputRefPath options = Some path → path ≠ Options.out options.
Proof.
  unfold outputRefPath, JsString.endsWith_d_ts. case_bool_decide as Hd; [|done].
  intros [= <-] Heq. apply length_slice_suffix in Hd.
  apply (f_equal String.length) in Heq.
  rewrite length_app_s, length_slice_stem in Heq by done. cbn in Heq. lia.
Qed.

Section finish_facts.
Variable env : Env.
Variable options : Options.t.

(** All the ways through [finish]. *)
Local Ltac crunch st :=
  destruct st as [out ref [] p [] sto held sent];
  unfold finish, unlinks;
  destruct (outputRefPath options) as [path|];
  destruct (unlink_error env) as [err|];
  lazy beta iota zeta delta
    [write output_end withStorage withStreams openStreams withPromise reject
     prependOutput sendMessage removeCloseResolver outputString
     outputRefString wroteToOutputRef promise closeResolver storage streams
     messages negb default from_option id];
  try reflexivity.

Lemma finish_wroteToOutputRef st :
  wroteToOutputRef (finish env options st) = wroteToOutputRef st.
Proof. crunch st. Qed.

Lemma finish_outputRefString st :
  outputRefString (finish env options st) = outputRefString st.
Proof. crunch st. Qed.

Lemma finish_outputString st :
  outputString (finish env options st) =
  (if wroteToOutputRef st then
     referenceDirective (default "undefined" (outputRefPath options)) +:+
     eol env options
   else "") +:+ outputString st.
Proof. crunch st. Qed.

Lemma finish_promise st :
  promise (finish env options st) =
  match unlink_error env with
  | Some err =>
      if unlinks options st then settle_reject err (promise st)
      else if closeResolver st then settle_resolve (promise st) else promise st
  | None => if closeResolver st then settle_resolve (promise st) else promise st
  end.
Proof.
  crunch st.
Qed.

Lemma finish_storage st :
  storage (finish env options st) =
  let held :=
    alter (λ held, held +:+ outputString (finish env options st))
          (Options.out options) (streams st) in
  match outputRefPath options with
  | Some path =>
      if wroteToOutputRef st
      then alter (λ held, held +:+ outputRefString st) path held ∪ storage st
      else match unlink_error env with
           | Some _ => held ∪ storage st
           | None => held ∪ delete path (storage st)
           end
  | None => held ∪ storage st
  end.
Proof. crunch st. Qed.

(** The main stream receives the main buffer, whatever happens to the
    auxiliary file. *)
Lemma finish_mainFile st old :
  streams st !! Options.out options = Some old →
  mainFile options (finish env options st) =
  Some (old +:+ outputString (finish env options st)).
Proof.
  intros Hold. unfold mainFile. rewrite finish_storage. cbv zeta.
  pose proof (outputRefPath_ne_out options) as Hne.
  destruct (outputRefPath options) as [path|].
  - specialize (Hne path eq_refl).
    destruct (wroteToOutputRef st); [|destruct (unlink_error env)];
      apply lookup_union_Some_l.
    + rewrite lookup_alter_ne by done. by rewrite lookup_alter_eq, Hold.
    + by rewrite lookup_alter_eq, Hold.
    + by rewrite lookup_alter_eq, Hold.
  - apply lookup_union_Some_l. by rewrite lookup_alter_eq, Hold.
Qed.

(** The auxiliary stream creates its file when it opens, after the
    deletion, and writes the RefBuffer to it if a line was hoisted. *)
Lemma finish_auxiliaryFile st path old :
  outputRefPath options = Some path →
  streams st !! path = Some old →
  auxiliaryFile options (finish env options st) =
  Some (if wroteToOutputRef st then old +:+ outputRefString st else old).
Proof.
  intros Hpath Hold. unfold auxiliaryFile. rewrite finish_storage.
  pose proof (outputRefPath_ne_out options path Hpath) as Hne.
  rewrite Hpath. cbn.
  destruct (wroteToOutputRef st); [|destruct (unlink_error env)];
    apply lookup_union_Some_l.
  - by rewrite lookup_alter_eq, lookup_alter_ne, Hold.
  - by rewrite lookup_alter_ne, Hold.
  - by rewrite lookup_alter_ne, Hold.
Qed.

End finish_facts.

Section run_facts.
Variable env : Env.
Variable options : Options.t.

(** The run up to the writing of the streams. *)
Lemma generate_collected :
  generate env options = finish env options (collected env options).
Proof.
  unfold generate. rewrite writeExterns_advance, some_advance, writeMain_advance.
  cbv zeta. rewrite !advance_advance. f_equal.
  unfold advance, collected, createWriteStream, withStreams, opened,
    sentMessages, units, hoistedLines, failure.
  destruct (outputRefPath options); cbn;
    rewrite ?app_nil_r_s, ?orb_false_r;
    by destruct (firstFailure env options _).
Qed.

Lemma opened_out : opened options !! Options.out options = Some "".
Proof.
  unfold opened. pose proof (outputRefPath_ne_out options) as Hne.
  destruct (outputRefPath options) as [path|].
  - rewrite lookup_insert_ne by (by apply Hne). apply lookup_insert_eq.
  - apply lookup_insert_eq.
Qed.

Lemma opened_ref path :
  outputRefPath options = Some path → opened options !! path = Some "".
Proof. unfold opened. intros ->. apply lookup_insert_eq. Qed.

(** Without an auxiliary stream nothing is hoisted. *)
Lemma hoistedLines_none :
  outputRefPath options = None → hoistedLines env options = [].
Proof.
  intros Hnone. unfold hoistedLines.
  induction (units env options) as [|d ds IH]; [done|].
  cbn [flat_map]. rewrite IH. unfold hoisted. rewrite Hnone.
  by destruct (externalModuleIndicator d).
Qed.

Lemma generate_wroteToOutputRef :
  wroteToOutputRef (generate env options) = nonEmpty (hoistedLines env options).
Proof. by rewrite generate_collected, finish_wroteToOutputRef. Qed.

Lemma generate_outputRefString :
  outputRefString (generate env options) =
  JsString.concat (hoistedLines env options).
Proof. by rewrite generate_collected, finish_outputRefString. Qed.

(** The main buffer at the end of the run. *)
Lemma generate_outputString :
  outputString (generate env options) =
  auxiliaryDirective env options +:+ externLines env options +:+
  JsString.concat (map (unitBlock env options) (units env options)) +:+
  aliasPart env options.
Proof.
  rewrite generate_collected, finish_outputString. cbn [collected wroteToOutputRef outputString].
  f_equal. unfold auxiliaryDirective.
  destruct (hoistedLines env options) as [|l ls] eqn:Hh; [done|].
  destruct (outputRefPath options) as [path|] eqn:Hp; [done|].
  by rewrite hoistedLines_none in Hh.
Qed.

Lemma generate_mainFile :
  mainFile options (generate env options) =
  Some (outputString (generate env options)).
Proof.
  rewrite generate_collected.
  by rewrite (finish_mainFile env options _ "") by apply opened_out.
Qed.

Lemma generate_auxiliaryFile path :
  outputRefPath options = Some path →
  auxiliaryFile options (generate env options) =
  Some (JsString.concat (hoistedLines env options)).
Proof.
  intros Hpath. rewrite generate_collected.
  rewrite (finish_auxiliaryFile env options _ path "")
    by (done || by apply opened_ref).
  cbn [collected wroteToOutputRef outputRefString].
  by destruct (hoistedLines env options).
Qed.

(** How the promise settles. *)
Lemma generate_promise :
  promise (generate env options) =
  match failure env options with
  | Some sourceFile => Rejected (diagnosticError env options sourceFile)
  | None =>
      match unlink_error env with
      | Some err =>
          if unlinks options (collected env options)
          then Rejected err else Resolved
      | None => Resolved
      end
  end.
Proof.
  rewrite generate_collected, finish_promise. cbn [collected closeResolver promise].
  destruct (failure env options); destruct (unlink_error env); try done.
  all: by destruct (unlinks options _).
Qed.

Lemma reached_failure before sf after :
  Forall (λ x, failed env options x = false) before →
  failed env options sf = true →
  reached env options (before ++ sf :: after) = before ++ [sf]
  ∧ firstFailure env options (before ++ sf :: after) = Some sf.
Proof.
  intros Hbefore Hsf. unfold firstFailure.
  induction Hbefore as [|x before Hx _ [IH1 IH2]]; cbn [app reached find].
  - by rewrite Hsf.
  - by rewrite Hx, IH1, IH2.
Qed.

End run_facts.

(** ** The module identifier *)

Lemma substring_app_l (a b : string) (m : nat) :
  String.substring (String.length a) m (a +:+ b) = String.substring 0 m b.
Proof. induction a as [|x a IH]; [done|]. rewrite app_cons_s. cbn. apply IH. Qed.

Lemma substring_prefix (a b : string) :
  String.substring 0 (String.length a) (a +:+ b) = a.
Proof.
  induction a as [|x a IH]; [apply substring_zero|].
  rewrite app_cons_s. cbn. by rewrite IH.
Qed.

(** Slicing off the base directory and the suffix. *)
Lemma slice_stem (base rel : string) :
  JsString.slice (base +:+ rel +:+ ".d.ts") (JsString.length base) (Some (-5))
  = rel.
Proof.
  unfold JsString.slice, JsString.clamp, JsString.length.
  rewrite !length_app_s. cbn [String.length].
  destruct (Z.ltb_spec (Z.of_nat (String.length base)) 0); [lia|]. cbn [Z.ltb Z.compare].
  rewrite Z.min_l, Z.max_l by lia. rewrite Nat2Z.id.
  replace (Z.to_nat _) with (String.length rel) by lia.
  rewrite substring_app_l. apply substring_prefix.
Qed.

Lemma replaceAllChar_free (c : ascii) (s : string) :
  c ≠ "/"%char →
  JsString.includes (String c "") (JsString.replaceAllChar c "/" s) = false.
Proof.
  intros Hc. induction s as [|x s IH]; [done|]. cbn [JsString.replaceAllChar].
  case_bool_decide as Hx.
  - change ("/" +:+ ?t) with (String "/" t). cbn [JsString.includes String.prefix].
    destruct (ascii_dec c "/"); [done|]. by rewrite IH.
  - cbn [JsString.includes String.prefix].
    destruct (ascii_dec c x); [by subst|]. by rewrite IH.
Qed.

Lemma replaceAllChar_forwardSlashes (c : ascii) (s : string) :
  JsString.replaceAllChar c "/" s = forwardSlashes c s.
Proof.
  unfold forwardSlashes. induction s as [|x s IH]; [done|].
  cbn [JsString.replaceAllChar JsString.mapChars]. rewrite IH.
  by case_bool_decide.
Qed.

Lemma forwardSlashes_slash (s : string) : forwardSlashes "/" s = s.
Proof.
  unfold forwardSlashes. induction s as [|x s IH]; [done|].
  cbn [JsString.mapChars]. rewrite IH. case_bool_decide; by subst.
Qed.

(** [filenameToMid] normalizes the separators of the host, whichever it
    is. *)
Lemma filenameToMid_forwardSlashes (pathUtil : PathUtil) (name : string) :
  filenameToMid pathUtil name = forwardSlashes (sep pathUtil) name.
Proof.
  unfold filenameToMid. case_bool_decide as Hsep.
  - by rewrite Hsep, forwardSlashes_slash.
  - apply replaceAllChar_forwardSlashes.
Qed.

(** C4. The module identifier of a unit whose path is the base directory,
    a relative part and the suffix [.d.ts] is the package name followed by
    that relative part with the separators of the host turned into forward
    slashes: every character of it that is the host separator becomes a
    forward slash and every other character stays (nothing changes where
    the host separator is the forward slash, and no host separator remains
    where it is another character). For base directory [/pkg/src], file
    [/pkg/src/a/b.d.ts] and package name [lib] it is [lib/a/b], and so it is
    on a host that separates with backslashes for the relative part
    [\a\b]. *)
Theorem sourceModuleId_resolved (env : Env) (options : Options.t)
    (declarationFile : SourceFile) (rel : string) :
  fileName declarationFile = baseDir env options +:+ rel +:+ ".d.ts" →
  sourceModuleId env options declarationFile =
    Options.name options +:+ filenameToMid (env_pathUtil env) rel
  ∧ (sep (env_pathUtil env) = "/"%char →
     filenameToMid (env_pathUtil env) rel = rel)
  ∧ (sep (env_pathUtil env) ≠ "/"%char →
     JsString.includes (String (sep (env_pathUtil env)) "")
       (filenameToMid (env_pathUtil env) rel) = false)
  ∧ sourceModuleId (Example.env [] None) Example.libOptions Example.a_b_d_ts
    = "lib/a/b"
  ∧ sourceModuleId env options declarationFile =
    Options.name options +:+ forwardSlashes (sep (env_pathUtil env)) rel
  ∧ (∀ name, filenameToMid (env_pathUtil env) name =
             forwardSlashes (sep (env_pathUtil env)) name)
  ∧ (sep (env_pathUtil env) = "092"%char →
     Options.name options = "lib" →
     rel = String "092" ("a" +:+ String "092" "b") →
     sourceModuleId env options declarationFile = "lib/a/b").
Proof.
  intros Hname.
  assert (sourceModuleId env options declarationFile =
          Options.name options +:+ forwardSlashes (sep (env_pathUtil env)) rel)
    as Hid.
  { unfold sourceModuleId.
    by rewrite Hname, slice_stem, filenameToMid_forwardSlashes. }
  split_and!.
  - unfold sourceModuleId. by rewrite Hname, slice_stem.
  - intros Hsep. unfold filenameToMid. by rewrite bool_decide_true.
  - intros Hsep. unfold filenameToMid. rewrite bool_decide_false by done.
    by apply replaceAllChar_free.
  - vm_compute. reflexivity.
  - exact Hid.
  - apply filenameToMid_forwardSlashes.
  - intros Hsep Hlib Hrel. rewrite Hid, Hsep, Hlib, Hrel. reflexivity.
Qed.

Lemma sourceModuleId_resolved_witness :
  fileName Example.a_b_d_ts =
    baseDir (Example.env [] None) Example.libOptions +:+ "/a/b" +:+ ".d.ts"
  ∧ sourceModuleId (Example.env [] None) Example.libOptions Example.a_b_d_ts =
      Options.name Example.libOptions +:+
      filenameToMid (env_pathUtil (Example.env [] None)) "/a/b".
Proof.
  assert (fileName Example.a_b_d_ts =
          baseDir (Example.env [] None) Example.libOptions +:+ "/a/b" +:+ ".d.ts")
    as Hname by (vm_compute; reflexivity).
  split; [exact Hname|].
  exact (proj1 (sourceModuleId_resolved (Example.env [] None) Example.libOptions
                  Example.a_b_d_ts "/a/b" Hname)).
Defined.

(** ** The declaration writer *)

(** C5. [writeDeclaration] appends the text of a unit that is not an
    external module unchanged, and wraps an external-module unit in a
    [declare module '<identifier>' { ... }] block around its rewritten,
    indented text; the replacer rewrites the specifier of a module
    reference, and a string literal under an import or export declaration,
    when it begins with ['.'], to the join of the directory of the unit's
    module identifier and the specifier; with name [pkg], [a.d.ts] is copied
    and [b], which imports ['./a'], becomes the block [declare module
    'pkg/b'] with the specifier ['pkg/a']. *)
Theorem writeDeclaration_blocks (env : Env) (options : Options.t)
    (declarationFile : SourceFile) (st : State) :
  let pathUtil := env_pathUtil env in
  let rewritten mid specifier :=
    filenameToMid pathUtil (join pathUtil (dirname pathUtil mid) specifier) in
  outputString (writeDeclaration env options declarationFile st) =
    outputString st +:+
    (if externalModuleIndicator declarationFile then
       "declare module '" +:+ sourceModuleId env options declarationFile +:+
       "' {" +:+ eol env options +:+ indent options +:+
       indentLines (eol env options) (indent options)
         (processTree declarationFile
            (declarationReplacer env
               (sourceModuleId env options declarationFile))) +:+
       eol env options +:+ "}" +:+ eol env options
     else sf_text declarationFile)
  ∧ (∀ mid p e t parent k' p' e' specifier cs' rest,
       declarationReplacer env mid
         (mkNode ExternalModuleReference p e t
            (mkNode k' p' e' specifier cs' :: rest)) parent =
       if JsString.charAt0_is "." specifier
       then Some (" require('" +:+ rewritten mid specifier +:+ "')")
       else None)
  ∧ (∀ mid p e specifier cs pp pe pt pcs,
       declarationReplacer env mid (mkNode StringLiteral p e specifier cs)
         (Some (mkNode ImportDeclaration pp pe pt pcs)) =
       if JsString.charAt0_is "." specifier
       then Some (" '" +:+ rewritten mid specifier +:+ "'")
       else None)
  ∧ (∀ mid p e specifier cs pp pe pt pcs,
       declarationReplacer env mid (mkNode StringLiteral p e specifier cs)
         (Some (mkNode ExportDeclaration pp pe pt pcs)) =
       if JsString.charAt0_is "." specifier
       then Some (" '" +:+ rewritten mid specifier +:+ "'")
       else None)
  ∧ mainFile Example.abOptions (generate Example.abEnv Example.abOptions) =
      Some ("declare var g: number;" +:+ LF +:+
            "declare module 'pkg/b' {" +:+ LF +:+
            TAB +:+ "import a = require('pkg/a');" +:+ LF +:+
            TAB +:+ "export var x: number;" +:+ LF +:+
            LF +:+
            "}" +:+ LF).
Proof.
  cbv zeta. split_and!.
  - rewrite writeDeclaration_advance. cbn [advance outputString].
    unfold unitBlock, moduleBlock. done.
  - done.
  - done.
  - done.
  - vm_compute. reflexivity.
Qed.

(** ** The alias of the main module *)

Lemma includes_app_r (t a b : string) :
  JsString.includes t b = true → JsString.includes t (a +:+ b) = true.
Proof.
  intros Hb. induction a as [|x a IH]; [done|].
  rewrite app_cons_s. cbn [JsString.includes]. rewrite IH. apply orb_true_r.
Qed.

(** With [main = "./b"] and [name = "pkg"] the trailing block names the
    module ['./b'], and the bundle does not mention [pkg/b] at all. *)
Lemma alias_not_resolved :
  ¬ aliasReexports Example.aliasEnv Example.aliasOptions "pkg/b"
  ∧ outputString (generate Example.aliasEnv Example.aliasOptions) =
      "declare module 'pkg' {" +:+ LF +:+
      TAB +:+ "import main = require('./b');" +:+ LF +:+
      TAB +:+ "export = main;" +:+ LF +:+
      "}" +:+ LF.
Proof.
  split; [|vm_compute; reflexivity].
  intros [before Heq]. apply (f_equal (JsString.includes "pkg/b")) in Heq.
  rewrite includes_app_r in Heq by (vm_compute; reflexivity).
  vm_compute in Heq. discriminate.
Qed.

(** C6, as the program has it. When [main] is a non-empty string, the main
    buffer, and with it the main file, ends with the block that declares
    the package name as a module importing [main], written as it was
    given, and exporting it. *)
Theorem alias_block_appended (env : Env) (options : Options.t) (main : string) :
  Options.main options = Some main → main ≠ "" →
  outputString (generate env options) =
    (auxiliaryDirective env options +:+ externLines env options +:+
     JsString.concat (map (unitBlock env options) (units env options))) +:+
    "declare module '" +:+ Options.name options +:+ "' {" +:+
    eol env options +:+ indent options +:+
    "import main = require('" +:+ main +:+ "');" +:+
    eol env options +:+ indent options +:+
    "export = main;" +:+ eol env options +:+
    "}" +:+ eol env options
  ∧ mainFile options (generate env options) =
      Some (outputString (generate env options)).
Proof.
  intros Hmain Hne. split; [|apply generate_mainFile].
  rewrite generate_outputString. unfold aliasPart, aliasBlock.
  rewrite Hmain, bool_decide_false by done. by rewrite !app_assoc_s.
Qed.

Lemma alias_block_appended_witness :
  Options.main Example.aliasOptions = Some "./b" ∧ "./b" ≠ ""
  ∧ mainFile Example.aliasOptions
      (generate Example.aliasEnv Example.aliasOptions) =
    Some (outputString (generate Example.aliasEnv Example.aliasOptions)).
Proof.
  split; [reflexivity|]. split; [discriminate|].
  apply (alias_block_appended Example.aliasEnv Example.aliasOptions "./b");
    [reflexivity | discriminate].
Defined.

(** ** The defaults of [eol] and [indent] *)

(** C10. An [eol] that is undefined or the empty string is replaced by
    the newline of the platform, any other is kept; an [indent] that is
    undefined becomes one tab, any other, the empty string included, is
    kept. A run with the empty string as [eol] is the run with [eol]
    undefined; with both given as the empty string the bundle has the
    platform's newlines and no indentation. *)
Theorem eol_indent_defaults (env : Env) (options : Options.t) :
  eol env options =
    match Options.eol options with
    | Some (String c e) => String c e
    | Some EmptyString | None => os_EOL env
    end
  ∧ indent options =
    match Options.indent options with
    | Some i => i
    | None => TAB
    end
  ∧ (∀ baseDir files excludes externs indent main name out,
       generate env
         {| Options.baseDir := baseDir; Options.files := files;
            Options.excludes := excludes; Options.externs := externs;
            Options.eol := Some ""; Options.indent := indent;
            Options.main := main; Options.name := name; Options.out := out |}
       = generate env
           {| Options.baseDir := baseDir; Options.files := files;
              Options.excludes := excludes; Options.externs := externs;
              Options.eol := None; Options.indent := indent;
              Options.main := main; Options.name := name; Options.out := out |})
  ∧ eol Example.abEnv Example.bareOptions = LF
  ∧ indent Example.bareOptions = ""
  ∧ outputString (generate Example.abEnv Example.bareOptions) =
      "declare var g: number;" +:+ LF +:+
      "declare module 'pkg/b' {" +:+ LF +:+
      "import a = require('pkg/a');" +:+ LF +:+
      "export var x: number;" +:+ LF +:+
      LF +:+
      "}" +:+ LF.
Proof.
  split_and!.
  - unfold eol. by destruct (Options.eol options) as [[|c e]|].
  - done.
  - reflexivity.
  - reflexivity.
  - reflexivity.
  - vm_compute. reflexivity.
Qed.

(** ** The order of the main bundle *)

(** With a hoisted directive and two externs, the main file starts with the
    directive to the auxiliary file, not with the externs. *)
Lemma externs_not_first :
  ¬ externsFirst Example.externEnv Example.externOptions
  ∧ mainFile Example.externOptions
      (generate Example.externEnv Example.externOptions) =
    Some (referenceDirective "out/pkg.ref.d.ts" +:+ LF +:+
          referenceDirective "x.d.ts" +:+ LF +:+
          referenceDirective "y.d.ts" +:+ LF +:+
          "declare module 'pkg/c' {" +:+ LF +:+
          TAB +:+ referenceDirective "../typings/t.d.ts" +:+ LF +:+
          TAB +:+ "export var c: number;" +:+ LF +:+
          LF +:+
          "}" +:+ LF +:+
          "declare var g: number;" +:+ LF).
Proof.
  split; [|vm_compute; reflexivity].
  unfold externsFirst. vm_compute. discriminate.
Qed.

(** C7, as the program has it. The main file holds, in this order: the
    directive to the auxiliary file, when a directive was hoisted; the
    extern directives in the order given (with externs [x.d.ts], [y.d.ts]
    these are the lines referencing [x.d.ts], then [y.d.ts]); the blocks of
    the processed units in the order of their enumeration; the alias block,
    when [main] asks for one. *)
Theorem bundle_order (env : Env) (options : Options.t) :
  mainFile options (generate env options) =
    Some (auxiliaryDirective env options +:+
          externLines env options +:+
          JsString.concat (map (unitBlock env options) (units env options)) +:+
          aliasPart env options)
  ∧ (∀ x y, Options.externs options = Some [x; y] →
       externLines env options =
       referenceDirective x +:+ eol env options +:+
       referenceDirective y +:+ eol env options)
  ∧ (hoistedLines env options = [] → auxiliaryDirective env options = "").
Proof.
  split_and!.
  - by rewrite generate_mainFile, generate_outputString.
  - intros x y Hxy. unfold externLines. rewrite Hxy.
    cbn [default from_option]. unfold id. cbn [map JsString.concat].
    by rewrite !app_assoc_s, app_nil_r_s.
  - unfold auxiliaryDirective. by intros ->.
Qed.

Lemma bundle_order_witness :
  Options.externs Example.plainOptions = Some ["x.d.ts"; "y.d.ts"]
  ∧ hoistedLines Example.plainEnv Example.plainOptions = []
  ∧ mainFile Example.plainOptions
      (generate Example.plainEnv Example.plainOptions) =
    Some ((referenceDirective "x.d.ts" +:+ LF +:+
           referenceDirective "y.d.ts" +:+ LF) +:+
          "declare var g: number;" +:+ LF).
Proof.
  split; [reflexivity|]. split; [vm_compute; reflexivity|].
  destruct (bundle_order Example.plainEnv Example.plainOptions)
    as (Hmain & Hexterns & Haux).
  rewrite Hmain, (Hexterns "x.d.ts" "y.d.ts" eq_refl), Haux
    by (vm_compute; reflexivity).
  vm_compute. reflexivity.
Defined.

(** ** The auxiliary file *)

Lemma hoisted_nonempty env options d l :
  l ∈ hoisted env options d → ∃ rest, l = String "/" rest.
Proof.
  unfold hoisted. destruct (externalModuleIndicator d); [|by intros ?%elem_of_nil].
  destruct (outputRefPath options) as [path|]; [|by intros ?%elem_of_nil].
  intros (refPath & -> & _)%list_elem_of_fmap. by eexists.
Qed.

Lemma hoistedLines_concat env options :
  JsString.concat (hoistedLines env options) = "" ↔ hoistedLines env options = [].
Proof.
  split; [|by intros ->].
  unfold hoistedLines. destruct (flat_map _ _) as [|l ls] eqn:Hl; [done|].
  assert (l ∈ flat_map (hoisted env options) (units env options)) as Hin
    by (rewrite Hl; left).
  apply list_elem_of_In, in_flat_map in Hin as (d & _ & Hd).
  apply list_elem_of_In, hoisted_nonempty in Hd as [rest ->]. done.
Qed.

(** C8, against the program. [wroteToOutputRef] is true exactly when a
    directive line was appended to the RefBuffer, which holds these lines
    and nothing else. But the auxiliary file is not gone after a run that
    hoists nothing: the executor asks for its deletion before the stream
    created for it has opened, so the deletion meets at most a file left by
    an earlier run, and the stream creates the file, empty, afterwards. With
    such a file in place the run succeeds and leaves an empty auxiliary
    file; with none, the deletion fails, the run is rejected, and the empty
    file is there as well. *)
Theorem auxiliary_file_left_behind (env : Env) (options : Options.t) :
  outputRefString (generate env options) =
    JsString.concat (hoistedLines env options)
  ∧ (wroteToOutputRef (generate env options) = true ↔
     hoistedLines env options ≠ [])
  ∧ (wroteToOutputRef (generate env options) = true ↔
     outputRefString (generate env options) ≠ "")
  ∧ auxiliaryFile options (generate env options) =
    match outputRefPath options with
    | Some _ => Some (JsString.concat (hoistedLines env options))
    | None => None
    end
  ∧ (wroteToOutputRef (generate Example.staleEnv Example.abOptions) = false
     ∧ promise (generate Example.staleEnv Example.abOptions) = Resolved
     ∧ auxiliaryFile Example.abOptions
         (generate Example.staleEnv Example.abOptions) = Some "")
  ∧ (wroteToOutputRef
       (generate (Example.env [Example.lib_d_ts; Example.a_d_ts; Example.b_ts]
                    (Some Example.ENOENT)) Example.abOptions) = false
     ∧ promise
         (generate (Example.env [Example.lib_d_ts; Example.a_d_ts; Example.b_ts]
                      (Some Example.ENOENT)) Example.abOptions)
       = Rejected Example.ENOENT
     ∧ auxiliaryFile Example.abOptions
         (generate (Example.env [Example.lib_d_ts; Example.a_d_ts; Example.b_ts]
                      (Some Example.ENOENT)) Example.abOptions) = Some "").
Proof.
  assert (wroteToOutputRef (generate env options) = true ↔
          hoistedLines env options ≠ []) as Hiff.
  { rewrite generate_wroteToOutputRef.
    destruct (hoistedLines env options); cbn; naive_solver. }
  split_and!.
  - apply generate_outputRefString.
  - done.
  - by rewrite Hiff, generate_outputRefString, hoistedLines_concat.
  - destruct (outputRefPath options) as [path|] eqn:Hpath.
    + by apply (generate_auxiliaryFile env options path).
    + unfold auxiliaryFile. by rewrite Hpath.
  - vm_compute. reflexivity.
  - vm_compute. reflexivity.
  - vm_compute. reflexivity.
  - vm_compute. reflexivity.
  - vm_compute. reflexivity.
  - vm_compute. reflexivity.
Qed.

(** ** Failures *)

(** When [bad.ts] has failed and the deletion of the auxiliary file fails
    as well, the promise stays rejected with the error of [bad.ts]. *)
Lemma unlink_error_not_the_reason :
  ¬ rejectsWithUnlinkError (Example.badEnv (Some Example.EPERM)) Example.badOptions
  ∧ promise (generate (Example.badEnv (Some Example.EPERM)) Example.badOptions) =
      Rejected
        {| err_name := "EmitterError";
           err_message :=
             "Declaration generation failed" +:+ LF +:+
             "/pkg/src/bad.ts(1,15): error TS2304: Cannot find name 'nope'." |}.
Proof.
  split; [|vm_compute; reflexivity].
  intros Hclaim.
  specialize (Hclaim Example.EPERM eq_refl).
  assert (promise (generate (Example.badEnv (Some Example.EPERM)) Example.badOptions)
          = Rejected Example.EPERM) as Hp.
  { apply Hclaim; [by eexists | vm_compute; reflexivity]. }
  vm_compute in Hp. discriminate.
Qed.

(** C9, as the program has it. When the auxiliary file is to be deleted
    and the deletion fails, the promise is rejected, with the error of the
    deletion unless a source file had failed before, whose error then
    stays; it is never resolved. *)
Theorem unlink_failure_rejects (env : Env) (options : Options.t) (err : Error) :
  unlink_error env = Some err →
  is_Some (outputRefPath options) →
  wroteToOutputRef (generate env options) = false →
  promise (generate env options) =
    Rejected match failure env options with
             | Some sourceFile => diagnosticError env options sourceFile
             | None => err
             end
  ∧ promise (generate env options) ≠ Resolved.
Proof.
  intros Herr [path Hpath] Hwrote.
  rewrite generate_wroteToOutputRef in Hwrote.
  rewrite generate_promise, Herr. unfold unlinks. rewrite Hpath.
  cbn [collected wroteToOutputRef]. rewrite Hwrote. cbn [negb].
  by destruct (failure env options).
Qed.

Lemma unlink_failure_rejects_witness :
  unlink_error (Example.env [Example.a_d_ts] (Some Example.EPERM))
    = Some Example.EPERM
  ∧ is_Some (outputRefPath Example.plainOptions)
  ∧ wroteToOutputRef
      (generate (Example.env [Example.a_d_ts] (Some Example.EPERM))
                Example.plainOptions) = false
  ∧ promise (generate (Example.env [Example.a_d_ts] (Some Example.EPERM))
                      Example.plainOptions) = Rejected Example.EPERM.
Proof.
  assert (is_Some (outputRefPath Example.plainOptions)) as Hpath
    by (by eexists).
  assert (wroteToOutputRef
            (generate (Example.env [Example.a_d_ts] (Some Example.EPERM))
                      Example.plainOptions) = false) as Hwrote
    by (vm_compute; reflexivity).
  split; [reflexivity|]. split; [exact Hpath|]. split; [exact Hwrote|].
  exact (proj1 (unlink_failure_rejects
                  (Example.env [Example.a_d_ts] (Some Example.EPERM))
                  Example.plainOptions Example.EPERM eq_refl Hpath Hwrote)).
Defined.

(** When [bad.ts] fails, the text of [a.d.ts], processed before it, is
    written to the main file all the same. *)
Lemma failure_stores_output :
  ¬ storesNothingOnFailure (Example.badEnv None) Example.badOptions
  ∧ failure (Example.badEnv None) Example.badOptions = Some Example.bad_ts
  ∧ mainFile Example.badOptions
      (generate (Example.badEnv None) Example.badOptions) =
    Some ("declare var g: number;" +:+ LF).
Proof.
  assert (failure (Example.badEnv None) Example.badOptions = Some Example.bad_ts)
    as Hfailure by (vm_compute; reflexivity).
  assert (mainFile Example.badOptions
            (generate (Example.badEnv None) Example.badOptions) =
          Some ("declare var g: number;" +:+ LF)) as Hmain
    by (vm_compute; reflexivity).
  split; [|done].
  intros Hclaim. destruct (Hclaim _ Hfailure) as [_ Hempty].
  rewrite Hmain in Hempty. discriminate.
Qed.

(** C1, as the program has it. When a source file fails, with a skipped
    emission or with diagnostics, after source files that do not, the
    promise is rejected with the error made of its diagnostics and the
    source files after it are not processed; the main buffer, with the
    blocks of the units up to and including those of the failing file, is
    written to the main file all the same. *)
Theorem failure_rejects_and_stops (env : Env) (options : Options.t)
    (before : list SourceFile) (sourceFile : SourceFile)
    (after : list SourceFile) :
  getSourceFiles (program env options) = before ++ sourceFile :: after →
  Forall (λ earlier, failed env options earlier = false) before →
  failed env options sourceFile = true →
  promise (generate env options) =
    Rejected (diagnosticError env options sourceFile)
  ∧ (∀ st, some env options (before ++ sourceFile :: after) st =
           some env options (before ++ [sourceFile]) st)
  ∧ units env options = declarations env options (before ++ [sourceFile])
  ∧ mainFile options (generate env options) =
      Some (auxiliaryDirective env options +:+
            externLines env options +:+
            JsString.concat
              (map (unitBlock env options)
                   (declarations env options (before ++ [sourceFile]))) +:+
            aliasPart env options).
Proof.
  intros Hfiles Hbefore Hfailed.
  destruct (reached_failure env options before sourceFile after Hbefore Hfailed)
    as [Hreached Hfirst].
  destruct (reached_failure env options before sourceFile [] Hbefore Hfailed)
    as [Hreached' Hfirst'].
  assert (units env options = declarations env options (before ++ [sourceFile]))
    as Hunits by (unfold units; by rewrite Hfiles, Hreached).
  split_and!.
  - rewrite generate_promise. unfold failure. by rewrite Hfiles, Hfirst.
  - intros st. rewrite !some_advance. cbv zeta.
    by rewrite Hreached, Hreached', Hfirst, Hfirst'.
  - done.
  - by rewrite generate_mainFile, generate_outputString, Hunits.
Qed.

Lemma failure_rejects_and_stops_witness :
  getSourceFiles (program (Example.badEnv None) Example.badOptions) =
    [Example.lib_d_ts; Example.a_d_ts] ++ Example.bad_ts :: [Example.c_d_ts]
  ∧ Forall (λ earlier,
              failed (Example.badEnv None) Example.badOptions earlier = false)
           [Example.lib_d_ts; Example.a_d_ts]
  ∧ failed (Example.badEnv None) Example.badOptions Example.bad_ts = true
  ∧ promise (generate (Example.badEnv None) Example.badOptions) =
      Rejected (diagnosticError (Example.badEnv None) Example.badOptions
                  Example.bad_ts).
Proof.
  assert (Forall (λ earlier,
                    failed (Example.badEnv None) Example.badOptions earlier = false)
                 [Example.lib_d_ts; Example.a_d_ts]) as Hbefore
    by (repeat constructor; vm_compute; reflexivity).
  assert (failed (Example.badEnv None) Example.badOptions Example.bad_ts = true)
    as Hfailed by (vm_compute; reflexivity).
  split; [reflexivity|]. split; [exact Hbefore|]. split; [exact Hfailed|].
  exact (proj1 (failure_rejects_and_stops
                  (Example.badEnv None) Example.badOptions
                  [Example.lib_d_ts; Example.a_d_ts] Example.bad_ts
                  [Example.c_d_ts] eq_refl Hbefore Hfailed)).
Defined.


(** * Further properties *)

(** ** More on the tree rewriter *)

Lemma length_slice (s : string) (a b : Z) :
  0 ≤ a → a ≤ b → b ≤ JsString.length s →
  JsString.length (JsString.slice s a (Some b)) = b - a.
Proof.
  intros Ha Hab Hb. unfold JsString.slice, JsString.clamp, JsString.length in *.
  destruct (Z.ltb_spec a 0); [lia|]. destruct (Z.ltb_spec b 0); [lia|].
  rewrite length_substring; lia.
Qed.

Lemma length_slice_from (s : string) (a : Z) :
  0 ≤ a → a ≤ JsString.length s →
  JsString.length (JsString.slice s a None) = JsString.length s - a.
Proof.
  intros Ha Hb. unfold JsString.slice, JsString.clamp, JsString.length in *.
  destruct (Z.ltb_spec a 0); [lia|]. rewrite length_substring; lia.
Qed.

Lemma length_app_z (a b : string) :
  JsString.length (a +:+ b) = JsString.length a + JsString.length b.
Proof. unfold JsString.length. rewrite length_app_s. lia. Qed.

Section rewriting_more.
Variable sourceText : string.
Variable replacer : Replacer.

Lemma replaced_Forall (P : Z * Z * string → Prop) node : ∀ parent,
  (∀ n parent' r, replacer n parent' = Some r → P (pos n, end_ n, r)) →
  Forall P (replaced replacer node parent).
Proof.
  induction node as [k p e t cs IH] using Node_ind. intros parent HP.
  rewrite replaced_unfold. destruct (replacer _ parent) as [r|] eqn:Hr.
  { constructor; [|constructor]. by apply (HP _ _ _ Hr). }
  clear Hr. generalize (Some (mkNode k p e t cs)) as parent'.
  induction IH as [|c cs' IHc _ IHcs]; intros parent'; cbn [flat_map].
  - constructor.
  - apply Forall_app. split; [by apply IHc | apply IHcs].
Qed.

(** Splicing in, for every span, the text it spans gives the text. *)
Lemma splice_own_text spans : ∀ cursor,
  0 ≤ cursor → ordered cursor spans →
  Forall (λ span, span.2 = JsString.slice sourceText span.1.1 (Some span.1.2))
         spans →
  splice sourceText cursor spans = JsString.slice sourceText cursor None.
Proof.
  induction spans as [|[[p e] r] spans IH]; intros cursor Hc Hord Hown; [done|].
  cbn [splice]. destruct Hord as (Hcp & Hpe & Hord).
  apply Forall_cons in Hown as [Hr Hown]. cbn in Hr. subst r.
  rewrite IH by (done || lia).
  rewrite (slice_split sourceText p e None) by (lia || done).
  apply slice_split; [done | done | done].
Qed.

Lemma ordered_end hi spans : ∀ cursor,
  ordered cursor (spans ++ [(hi, hi, "")]) → cursor ≤ hi.
Proof.
  induction spans as [|[[p e] r] spans IH]; intros cursor; cbn.
  - lia.
  - intros (? & ? & Hord). specialize (IH _ Hord). lia.
Qed.

(** The length of a spliced text. *)
Lemma length_splice hi spans : ∀ cursor,
  0 ≤ cursor → hi ≤ JsString.length sourceText →
  ordered cursor (spans ++ [(hi, hi, "")]) →
  JsString.length (splice sourceText cursor spans) =
  JsString.length sourceText - cursor - removed spans + inserted spans.
Proof.
  induction spans as [|[[p e] r] spans IH]; intros cursor Hc Hhi Hord.
  - apply ordered_end in Hord. cbn [splice removed inserted].
    rewrite length_slice_from; lia.
  - cbn [app ordered] in Hord. destruct Hord as (Hcp & Hpe & Hord).
    pose proof (ordered_end _ _ _ Hord).
    cbn [splice removed inserted]. rewrite !length_app_z, IH by (done || lia).
    rewrite length_slice by lia. lia.
Qed.

(** X3. In a well-formed tree [visit] only moves the cursor forward:
    started at or before the lower bound of a node, it leaves the cursor
    inside the span of that node, whatever the replacer answers. *)
Theorem visit_cursor node : ∀ parent st lo hi,
  wf lo hi node = true → cursorPosition st ≤ lo →
  cursorPosition st ≤ cursorPosition (visit sourceText replacer node parent st)
  ∧ pos node ≤ cursorPosition (visit sourceText replacer node parent st)
  ∧ cursorPosition (visit sourceText replacer node parent st) ≤ end_ node.
Proof.
  enough (∀ parent st lo hi,
    wf lo hi node = true → cursorPosition st ≤ lo →
    pos node ≤ cursorPosition (visit sourceText replacer node parent st)
    ∧ cursorPosition (visit sourceText replacer node parent st) ≤ end_ node)
    as Hmain.
  { intros parent st lo hi Hwf Hcur.
    destruct (Hmain parent st lo hi Hwf Hcur) as [? ?].
    apply wf_bounds in Hwf. lia. }
  induction node as [k p e t cs IH] using Node_ind.
  intros parent st lo hi Hwf Hcur.
  pose proof (wf_bounds _ _ _ Hwf) as (Hlo & Hpe & Hhi); cbn in Hlo, Hpe, Hhi.
  rewrite visit_unfold. cbv zeta. cbn [pos end_].
  destruct (replacer _ parent); [cbn; lia|].
  rewrite wf_unfold, !andb_true_iff in Hwf. destruct Hwf as [_ Hcs].
  set (st1 := readThrough sourceText (mkNode k p e t cs) st).
  assert (p ≤ cursorPosition st1 ∧ cursorPosition st1 ≤ p) as H1 by (cbn; lia).
  clearbody st1. clear Hcur st. revert st1 H1 Hcs Hpe.
  generalize (Some (mkNode k p e t cs)) as parent'.
  generalize p at 2 3 4 as lo'.
  induction IH as [|c cs' IHc _ IHcs]; intros lo' parent' st1 H1 Hcs Hle;
    cbn [fold_left].
  - lia.
  - cbn in Hcs. rewrite andb_true_iff in Hcs. destruct Hcs as [Hc Hcs].
    pose proof (wf_bounds _ _ _ Hc) as (? & ? & ?).
    destruct (IHc parent' st1 lo' e Hc) as [? ?]; [lia|].
    apply (IHcs (end_ c)); [lia | done | lia].
Qed.

End rewriting_more.

Lemma visit_cursor_witness :
  wf 0 57 (asNode Example.b_d_ts) = true
  ∧ cursorPosition {| code := ""; cursorPosition := 0 |} ≤ 0
  ∧ cursorPosition
      (visit Example.b_d_ts_text Example.greedyReplacer (asNode Example.b_d_ts)
         None {| code := ""; cursorPosition := 0 |})
    ≤ end_ (asNode Example.b_d_ts).
Proof.
  assert (wf 0 57 (asNode Example.b_d_ts) = true) as Hwf
    by (vm_compute; reflexivity).
  split; [exact Hwf|]. split; [cbn; lia|].
  exact (proj2 (proj2 (visit_cursor Example.b_d_ts_text Example.greedyReplacer
                         (asNode Example.b_d_ts) None
                         {| code := ""; cursorPosition := 0 |} 0 57 Hwf
                         (Z.le_refl 0)))).
Defined.

(** X1. For a unit whose tree is well formed and a replacer that answers,
    wherever it answers, with the very text the node spans, [processTree]
    returns the text of the unit unchanged. *)
Theorem processTree_own_text (sourceFile : SourceFile) (replacer : Replacer) :
  wf_sourceFile sourceFile = true →
  (∀ node parent r, replacer node parent = Some r →
     r = JsString.slice (sf_text sourceFile) (pos node) (Some (end_ node))) →
  processTree sourceFile replacer = sf_text sourceFile.
Proof.
  intros Hwf Hown. rewrite processTree_replaced by done.
  rewrite splice_own_text; [apply slice_all | done | |].
  - rewrite <- (app_nil_r (replaced _ _ _)).
    by apply replaced_ordered with (sf_end sourceFile).
  - apply replaced_Forall. intros n parent r Hr. cbn. by apply Hown in Hr.
Qed.

Lemma processTree_own_text_witness :
  wf_sourceFile Example.b_d_ts = true
  ∧ Example.echoReplacer (mkNode DeclareKeyword 33 41 "" []) None
    = Some " declare"
  ∧ processTree Example.b_d_ts Example.echoReplacer = sf_text Example.b_d_ts.
Proof.
  assert (wf_sourceFile Example.b_d_ts = true) as Hwf by (vm_compute; reflexivity).
  split; [exact Hwf|]. split; [vm_compute; reflexivity|].
  apply (processTree_own_text Example.b_d_ts Example.echoReplacer Hwf).
  intros node parent r. unfold Example.echoReplacer.
  case_bool_decide; [|done]. by intros [= <-].
Defined.

(** X2. For a unit whose tree is well formed and ends within its text, the
    output of [processTree] is as long as the text, less the characters the
    replaced spans cover, plus the characters of their replacements. *)
Theorem processTree_length (sourceFile : SourceFile) (replacer : Replacer) :
  wf_sourceFile sourceFile = true →
  sf_end sourceFile ≤ JsString.length (sf_text sourceFile) →
  JsString.length (processTree sourceFile replacer) =
  JsString.length (sf_text sourceFile)
  - removed (replaced replacer (asNode sourceFile) None)
  + inserted (replaced replacer (asNode sourceFile) None).
Proof.
  intros Hwf Hend. rewrite processTree_replaced by done.
  rewrite (length_splice _ (sf_end sourceFile)); [lia | done | done |].
  apply replaced_ordered with (sf_end sourceFile); [done|]. cbn. lia.
Qed.

Lemma processTree_length_witness :
  wf_sourceFile Example.b_d_ts = true
  ∧ sf_end Example.b_d_ts ≤ JsString.length (sf_text Example.b_d_ts)
  ∧ JsString.length (processTree Example.b_d_ts Example.greedyReplacer) =
    JsString.length (sf_text Example.b_d_ts)
    - removed (replaced Example.greedyReplacer (asNode Example.b_d_ts) None)
    + inserted (replaced Example.greedyReplacer (asNode Example.b_d_ts) None).
Proof.
  assert (wf_sourceFile Example.b_d_ts = true) as Hwf by (vm_compute; reflexivity).
  assert (sf_end Example.b_d_ts ≤ JsString.length (sf_text Example.b_d_ts))
    as Hend by (vm_compute; discriminate).
  split; [exact Hwf|]. split; [exact Hend|].
  exact (processTree_length Example.b_d_ts Example.greedyReplacer Hwf Hend).
Defined.

(** ** The line indenter *)

Lemma prefix_nil (s : string) : String.prefix "" s = true.
Proof. by destruct s. Qed.

Lemma prefix_drop (a s : string) :
  String.prefix a s = true → a +:+ JsString.drop (String.length a) s = s.
Proof.
  revert s. induction a as [|x a IH]; intros [|y s]; cbn; try done.
  destruct (ascii_dec x y) as [->|]; [|done]. intros Hp.
  by rewrite app_cons_s, IH.
Qed.

Lemma substitution_match template matched before after :
  substitution ("$&" +:+ template) matched before after =
  matched +:+ substitution template matched before after.
Proof. done. Qed.

(** A replacement string without a dollar sign stands for itself. *)
Lemma substitution_plain template matched before after :
  JsString.includes "$" template = false →
  substitution template matched before after = template.
Proof.
  induction template as [|c t IH]; [done|]. cbn [JsString.includes String.prefix].
  destruct (ascii_dec "$" c) as [<-|Hc].
  { rewrite prefix_nil. done. }
  cbn [orb]. intros Ht. specialize (IH Ht).
  assert (substitution (String c t) matched before after =
          String c (substitution t matched before after)) as ->.
  { cbn [substitution]. by repeat case_match; simplify_eq. }
  by rewrite IH.
Qed.

Lemma indentFrom_empty_indent eol s : ∀ seen pending,
  indentFrom eol "" seen pending s = JsString.drop pending s.
Proof.
  induction s as [|c s IH]; intros seen pending; [by destruct pending|].
  cbn [indentFrom]. destruct pending as [|pending]; [|by rewrite IH].
  cbn [JsString.drop]. destruct (nonEmptyLineStart eol (String c s)) eqn:Hm.
  - rewrite IH. change ("$&" +:+ "") with "$&".
    rewrite (substitution_match ""). cbn [substitution]. rewrite app_nil_r_s.
    unfold nonEmptyLineStart in Hm.
    destruct eol as [|e eol']; [by rewrite !prefix_nil in Hm|].
    apply andb_true_iff in Hm as [Hp _]. cbn [String.prefix] in Hp. destruct (ascii_dec e c) as [->|]; [|done].
    cbn [String.length Nat.sub]. rewrite ?Nat.sub_0_r, app_cons_s.
    by rewrite (prefix_drop eol' s Hp).
  - by rewrite IH.
Qed.

Lemma indentFrom_no_eol eol indent s : ∀ seen,
  JsString.includes eol s = false → indentFrom eol indent seen O s = s.
Proof.
  induction s as [|c s IH]; intros seen; [done|].
  cbn [JsString.includes indentFrom].
  intros [Hprefix Hrest]%orb_false_iff. unfold nonEmptyLineStart.
  rewrite Hprefix. cbn [andb]. by rewrite IH.
Qed.

(** X4. For a line terminator that stands for itself in a regular
    expression, the indenter leaves a text as it is when the indent is the
    empty string, and when the text holds no line terminator (a single line
    gets no indent from it: the indent of the first line is written by the
    caller). *)
Theorem indentLines_unchanged (eol indent content : string) :
  JsString.regexLiteral eol = true →
  indentLines eol "" content = content
  ∧ (JsString.includes eol content = false →
     indentLines eol indent content = content).
Proof.
  intros _. split.
  - unfold indentLines. by rewrite indentFrom_empty_indent.
  - apply indentFrom_no_eol.
Qed.

Lemma indentLines_unchanged_witness :
  JsString.regexLiteral LF = true
  ∧ JsString.includes LF "export var x: number;" = false
  ∧ indentLines LF TAB "export var x: number;" = "export var x: number;".
Proof.
  assert (JsString.regexLiteral LF = true) as Hliteral
    by (vm_compute; reflexivity).
  assert (JsString.includes LF "export var x: number;" = false) as Hnone
    by (vm_compute; reflexivity).
  split; [exact Hliteral|]. split; [exact Hnone|].
  exact (proj2 (indentLines_unchanged LF TAB "export var x: number;" Hliteral)
           Hnone).
Defined.

(** X5. A module unit whose tree is well formed and holds no node the
    replacer of [writeDeclaration] fires on is appended as its own text,
    indented line by line, between the opening [declare module] line and the
    closing brace. *)
Theorem writeDeclaration_untouched (env : Env) (options : Options.t)
    (declarationFile : SourceFile) (st : State) :
  externalModuleIndicator declarationFile = true →
  wf_sourceFile declarationFile = true →
  (∀ node parent, node ∈ nodes (asNode declarationFile) →
     declarationReplacer env (sourceModuleId env options declarationFile)
       node parent = None) →
  outputString (writeDeclaration env options declarationFile st) =
    outputString st +:+
    "declare module '" +:+ sourceModuleId env options declarationFile +:+
    "' {" +:+ eol env options +:+ indent options +:+
    indentLines (eol env options) (indent options) (sf_text declarationFile) +:+
    eol env options +:+ "}" +:+ eol env options.
Proof.
  intros Hmodule Hwf Hnone. rewrite writeDeclaration_advance.
  cbn [advance outputString]. unfold unitBlock, moduleBlock.
  rewrite Hmodule, processTree_replaced by done.
  rewrite replaced_none by done. cbn [splice]. by rewrite slice_all.
Qed.

Lemma writeDeclaration_untouched_witness :
  externalModuleIndicator Example.i_d_ts = true
  ∧ wf_sourceFile Example.i_d_ts = true
  ∧ outputString
      (writeDeclaration Example.abEnv Example.abOptions Example.i_d_ts
         (collected Example.aliasEnv Example.aliasOptions)) =
    outputString (collected Example.aliasEnv Example.aliasOptions) +:+
    "declare module '" +:+
    sourceModuleId Example.abEnv Example.abOptions Example.i_d_ts +:+
    "' {" +:+ eol Example.abEnv Example.abOptions +:+
    indent Example.abOptions +:+
    indentLines (eol Example.abEnv Example.abOptions)
      (indent Example.abOptions) (sf_text Example.i_d_ts) +:+
    eol Example.abEnv Example.abOptions +:+ "}" +:+
    eol Example.abEnv Example.abOptions.
Proof.
  assert (wf_sourceFile Example.i_d_ts = true) as Hwf by (vm_compute; reflexivity).
  split; [reflexivity|]. split; [exact Hwf|].
  apply (writeDeclaration_untouched Example.abEnv Example.abOptions
           Example.i_d_ts _ eq_refl Hwf).
  intros node parent Hnode. apply list_elem_of_In in Hnode. cbn in Hnode.
  intuition subst; reflexivity.
Defined.

(** X6. With a line terminator of one character that stands for itself
    in a regular expression, and an indent without a dollar sign, the
    indenter splits the text at the terminators and puts the indent before
    every line but the first that is not empty; empty lines, and the end of
    a text that ends with a terminator, get none. *)
Theorem indentLines_lines (c : ascii) (indent content : string) :
  JsString.regexLiteral (String c "") = true →
  JsString.includes "$" indent = false →
  indentLines (String c "") indent content =
  JsString.join (String c "")
    match JsString.split c content with
    | first :: rest =>
        first :: map (λ line, if bool_decide (line = "") then ""
                              else indent +:+ line) rest
    | [] => []
    end.
Proof.
  intros _ Hplain. unfold indentLines.
  set (f := λ line : string,
              if bool_decide (line = "") then "" else indent +:+ line).
  enough (∀ seen,
    indentFrom (String c "") indent seen O content =
    JsString.join (String c "")
      match JsString.split c content with
      | first :: rest => first :: map f rest
      | [] => []
      end) as Hseen by apply Hseen.
  assert (∀ x a l, JsString.join (String c "") (String x a :: l) =
                   String x (JsString.join (String c "") (a :: l))) as Hjoin.
  { intros x a [|b l]; [done|]. cbn [JsString.join]. by rewrite app_cons_s. }
  induction content as [|x s IH]; intros seen; [done|].
  cbn [indentFrom JsString.split]. unfold nonEmptyLineStart.
  cbn [String.prefix String.length JsString.drop Nat.sub].
  destruct (JsString.split c s) as [|first rest] eqn:Hsplit.
  { by destruct s; cbn in Hsplit; repeat case_match. }
  destruct (ascii_dec c x) as [<-|Hne].
  - rewrite (bool_decide_true (c = c)) by done. cbn [andb String.prefix].
    assert (bool_decide (first = "") =
            (String.prefix (String c "") s || bool_decide (s = ""))) as Hfirst.
    { destruct s as [|y s']; [by cbn in Hsplit; simplify_eq|].
      cbn [JsString.split String.prefix] in *.
      rewrite (bool_decide_false (String y s' = "")), orb_false_r by done.
      destruct (ascii_dec c y) as [->|Hne].
      - rewrite bool_decide_true in Hsplit by done. simplify_eq.
        by destruct s'.
      - rewrite bool_decide_false in Hsplit by done.
        by repeat case_match; simplify_eq. }
    cbn [map]. change (JsString.join (String c "") ("" :: f first :: map f rest))
      with (String c (JsString.join (String c "") (f first :: map f rest))).
    rewrite <- Hfirst. unfold f at 1. rewrite prefix_nil.
    destruct (bool_decide (first = "")) eqn:Hempty; cbn [negb andb].
    + apply bool_decide_eq_true in Hempty. subst first. by rewrite IH.
    + rewrite substitution_match, substitution_plain by done.
      rewrite IH, !app_cons_s, app_nil_l_s. f_equal.
      destruct (map f rest); cbn [JsString.join]; by rewrite ?app_assoc_s.
  - rewrite (bool_decide_false (x = c)) by done. cbn [andb].
    by rewrite IH, Hjoin.
Qed.

Lemma indentLines_lines_witness :
  JsString.regexLiteral LF = true
  ∧ JsString.includes "$" TAB = false
  ∧ indentLines LF TAB Example.b_d_ts_text =
    "import a = require('./a');" +:+ LF +:+
    TAB +:+ "export declare var x: number;" +:+ LF.
Proof.
  assert (JsString.regexLiteral LF = true) as Hliteral
    by (vm_compute; reflexivity).
  assert (JsString.includes "$" TAB = false) as Hplain
    by (vm_compute; reflexivity).
  split; [exact Hliteral|]. split; [exact Hplain|].
  unfold LF at 1. unfold LF in Hliteral.
  rewrite (indentLines_lines "010" TAB Example.b_d_ts_text Hliteral Hplain).
  vm_compute. reflexivity.
Defined.

(** ** Paths and names *)

Lemma replaceAllChar_app c r a b :
  JsString.replaceAllChar c r (a +:+ b) =
  JsString.replaceAllChar c r a +:+ JsString.replaceAllChar c r b.
Proof.
  induction a as [|x a IH]; [done|]. rewrite app_cons_s.
  cbn [JsString.replaceAllChar]. rewrite IH.
  case_bool_decide; by rewrite ?app_assoc_s, ?app_cons_s.
Qed.

Lemma replaceAllChar_length c s :
  String.length (JsString.replaceAllChar c "/" s) = String.length s.
Proof.
  induction s as [|x s IH]; [done|]. cbn [JsString.replaceAllChar].
  case_bool_decide; [rewrite length_app_s|]; cbn; by rewrite IH.
Qed.

Lemma replaceAllChar_idempotent c s :
  c ≠ "/"%char →
  JsString.replaceAllChar c "/" (JsString.replaceAllChar c "/" s) =
  JsString.replaceAllChar c "/" s.
Proof.
  intros Hc. induction s as [|x s IH]; [done|]. cbn [JsString.replaceAllChar].
  case_bool_decide as Hx.
  - change ("/" +:+ ?t) with (String "/" t). cbn [JsString.replaceAllChar].
    rewrite bool_decide_false by done. by rewrite IH.
  - cbn [JsString.replaceAllChar]. rewrite bool_decide_false by done.
    by rewrite IH.
Qed.

(** X7. [filenameToMid] keeps the length of a name, works part by part on
    a name put together from two, and changes nothing any more when applied
    a second time. *)
Theorem filenameToMid_stable (pathUtil : PathUtil) (a b : string) :
  String.length (filenameToMid pathUtil a) = String.length a
  ∧ filenameToMid pathUtil (a +:+ b) =
    filenameToMid pathUtil a +:+ filenameToMid pathUtil b
  ∧ filenameToMid pathUtil (filenameToMid pathUtil a) = filenameToMid pathUtil a.
Proof.
  unfold filenameToMid. case_bool_decide as Hsep; [done|]. split_and!.
  - apply replaceAllChar_length.
  - apply replaceAllChar_app.
  - by apply replaceAllChar_idempotent.
Qed.

Lemma slice_stem_suffix (s : string) :
  (5 ≤ String.length s)%nat →
  JsString.slice s 0 (Some (-5)) +:+ JsString.slice s (-5) None = s.
Proof.
  intros Hlen. unfold JsString.slice, JsString.clamp, JsString.length. cbn.
  set (n := String.length s) in *.
  replace (Z.to_nat (0 `min` Z.of_nat n)) with 0%nat by lia.
  replace (Z.to_nat (((Z.of_nat n + -5) `max` 0 - 0 `min` Z.of_nat n) `max` 0))
    with (n - 5)%nat by lia.
  replace (Z.to_nat ((Z.of_nat n + -5) `max` 0)) with (0 + (n - 5))%nat by lia.
  replace (Z.to_nat _) with 5%nat by lia.
  rewrite <- substring_split.
  replace (n - 5 + 5)%nat with n by lia. apply substring_all.
Qed.

Lemma endsWith_d_ts_app (stem : string) :
  JsString.endsWith_d_ts (stem +:+ ".d.ts") = true.
Proof.
  apply bool_decide_eq_true.
  unfold JsString.slice, JsString.clamp, JsString.length.
  rewrite length_app_s. cbn [String.length Z.ltb Z.compare].
  replace (Z.to_nat _) with (String.length stem) by lia.
  replace (Z.to_nat _) with 5%nat by lia.
  by rewrite substring_app_l.
Qed.

(** X8. The auxiliary file is opened exactly when [out] is a stem followed
    by [.d.ts], and its path is then that stem followed by [.ref.d.ts]. *)
Theorem outputRefPath_stem (options : Options.t) (path : string) :
  outputRefPath options = Some path ↔
  ∃ stem, Options.out options = stem +:+ ".d.ts" ∧ path = stem +:+ ".ref.d.ts".
Proof.
  unfold outputRefPath. split.
  - destruct (JsString.endsWith_d_ts (Options.out options)) eqn:Hd; [|done].
    intros [= <-]. exists (JsString.slice (Options.out options) 0 (Some (-5))).
    split; [|done]. apply bool_decide_eq_true in Hd.
    rewrite <- (slice_stem_suffix (Options.out options)) at 1
      by (by apply length_slice_suffix).
    by rewrite Hd.
  - intros (stem & -> & ->). rewrite endsWith_d_ts_app. f_equal. f_equal.
    apply (slice_stem "" stem).
Qed.

(** ** The diagnostics of a failure *)

(** X9. The error of a failure is named [EmitterError]; its message is the
    heading followed by one line per diagnostic, in their order, so that the
    message for two lists of diagnostics one after the other is the message
    for the first followed by the lines of the second. *)
Theorem getError_lines (diagnostics more : list Diagnostic) :
  err_name (getError diagnostics) = "EmitterError"
  ∧ err_message (getError diagnostics) =
    "Declaration generation failed" +:+
    JsString.concat (map diagnosticLine diagnostics)
  ∧ err_message (getError (diagnostics ++ more)) =
    err_message (getError diagnostics) +:+
    JsString.concat (map diagnosticLine more).
Proof.
  assert (∀ ds header,
    foldl (λ message diagnostic,
             message +:+
             LF +:+ diag_fileName diagnostic +:+
             "(" +:+ pretty (diag_line diagnostic + 1)%N +:+
             "," +:+ pretty (diag_character diagnostic + 1)%N +:+ "): " +:+
             "error TS" +:+ pretty (diag_code diagnostic) +:+ ": " +:+
             messageText diagnostic) header ds
    = header +:+ JsString.concat (map diagnosticLine ds)) as Hfold.
  { induction ds as [|d ds IH]; intros header; cbn [foldl map JsString.concat].
    - by rewrite app_nil_r_s.
    - rewrite IH. unfold diagnosticLine. by rewrite !app_assoc_s. }
  unfold getError. cbn [err_name err_message]. split_and!; [done | apply Hfold |].
  by rewrite !Hfold, map_app, concat_app_s, app_assoc_s.
Qed.

(** ** Which source files are bundled *)

Lemma foldl_insert_true {A} (key : A → string) (l : list A) :
  ∀ (m : gmap string bool) k,
  foldl (λ (m : gmap string bool) x, <[key x := true]> m) m l !! k =
  if bool_decide (Exists (λ x, key x = k) l) then Some true else m !! k.
Proof.
  induction l as [|x l IH]; intros m k; cbn [foldl].
  - rewrite bool_decide_false; [done|]. by intros ?%Exists_nil.
  - rewrite IH. case_bool_decide as Hl.
    + rewrite bool_decide_true; [done|]. by right.
    + case_bool_decide as Hxl.
      * apply Exists_cons in Hxl as [<-|?]; [apply lookup_insert_eq | done].
      * rewrite lookup_insert_ne; [done|]. intros <-. apply Hxl. by left.
Qed.

Lemma excludesMap_lookup_eq env options k :
  excludesMap env options !! k =
  if bool_decide
       (Exists (λ filename,
                  filenameToMid (env_pathUtil env)
                    (resolve (env_pathUtil env) [baseDir env options; filename])
                  = k)
               (default [] (Options.excludes options)))
  then Some true else None.
Proof.
  unfold excludesMap. destruct (Options.excludes options) as [excludes|].
  - by rewrite (foldl_insert_true
                  (λ filename, filenameToMid (env_pathUtil env)
                     (resolve (env_pathUtil env) [baseDir env options; filename]))).
  - rewrite bool_decide_false; [apply lookup_empty|]. by intros ?%Exists_nil.
Qed.

(** X10. [excludesMap] holds [true] exactly at the module paths of the
    excluded files, resolved against the base directory, and nothing
    anywhere else. *)
Theorem excludesMap_lookup (env : Env) (options : Options.t) (k : string) :
  (excludesMap env options !! k = Some true ↔
   ∃ filename, filename ∈ default [] (Options.excludes options)
     ∧ k = filenameToMid (env_pathUtil env)
             (resolve (env_pathUtil env) [baseDir env options; filename]))
  ∧ (excludesMap env options !! k = None ↔
     ¬ ∃ filename, filename ∈ default [] (Options.excludes options)
       ∧ k = filenameToMid (env_pathUtil env)
               (resolve (env_pathUtil env) [baseDir env options; filename])).
Proof.
  rewrite excludesMap_lookup_eq.
  assert (Exists (λ filename,
                    filenameToMid (env_pathUtil env)
                      (resolve (env_pathUtil env) [baseDir env options; filename])
                    = k)
                 (default [] (Options.excludes options)) ↔
          ∃ filename, filename ∈ default [] (Options.excludes options)
            ∧ k = filenameToMid (env_pathUtil env)
                    (resolve (env_pathUtil env) [baseDir env options; filename]))
    as Hiff.
  { rewrite Exists_exists. split; intros (f & ? & ?); by exists f. }
  rewrite <- Hiff. case_bool_decide; split; split; done.
Qed.

Lemma unselected_step env options sf st :
  selected env options sf = false →
  processSourceFile env options sf st = (st, false).
Proof.
  intros Hsel. rewrite processSourceFile_advance. cbv zeta.
  rewrite declarations_single, Hsel. cbn [map flat_map JsString.concat nonEmpty].
  assert (failed env options sf = false) as ->.
  { unfold failed. by rewrite Hsel. }
  by rewrite advance_id.
Qed.

(** X11. A source file outside the base directory, or one whose module
    path is that of an excluded file, changes nothing: its call leaves the
    state as it is and the loop goes on, so the run is the run without that
    file. *)
Theorem unselected_skipped (env : Env) (options : Options.t)
    (sourceFile : SourceFile) (before after : list SourceFile) (st : State) :
  JsString.startsWith (baseDir env options)
    (normalize (env_pathUtil env) (fileName sourceFile)) = false
  ∨ (∃ filename, filename ∈ default [] (Options.excludes options)
       ∧ filenameToMid (env_pathUtil env)
           (normalize (env_pathUtil env) (fileName sourceFile)) =
         filenameToMid (env_pathUtil env)
           (resolve (env_pathUtil env) [baseDir env options; filename])) →
  processSourceFile env options sourceFile st = (st, false)
  ∧ some env options (before ++ sourceFile :: after) st =
    some env options (before ++ after) st.
Proof.
  intros Hout.
  assert (selected env options sourceFile = false) as Hsel.
  { unfold selected. destruct Hout as [->|(f & Hf & Heq)]; [done|].
    rewrite excludesMap_lookup_eq.
    destruct (bool_decide (Exists _ _)) eqn:Hex.
    + rewrite bool_decide_true by done. apply andb_false_r.
    + apply bool_decide_eq_false in Hex. destruct Hex.
      apply Exists_exists. eauto. }
  split; [by apply unselected_step|].
  revert st. induction before as [|x before IH]; intros st; cbn [app some].
  - by rewrite unselected_step.
  - destruct (processSourceFile env options x st) as [st' []]; [done | apply IH].
Qed.

Lemma unselected_skipped_witness :
  JsString.startsWith (baseDir Example.abEnv Example.abOptions)
    (normalize (env_pathUtil Example.abEnv) (fileName Example.lib_d_ts)) = false
  ∧ some Example.abEnv Example.abOptions
      ([] ++ Example.lib_d_ts :: [Example.a_d_ts; Example.b_ts])
      (collected Example.aliasEnv Example.aliasOptions) =
    some Example.abEnv Example.abOptions ([] ++ [Example.a_d_ts; Example.b_ts])
      (collected Example.aliasEnv Example.aliasOptions).
Proof.
  assert (JsString.startsWith (baseDir Example.abEnv Example.abOptions)
            (normalize (env_pathUtil Example.abEnv) (fileName Example.lib_d_ts))
          = false) as Hout by (vm_compute; reflexivity).
  split; [exact Hout|].
  exact (proj2 (unselected_skipped Example.abEnv Example.abOptions
                  Example.lib_d_ts [] [Example.a_d_ts; Example.b_ts]
                  (collected Example.aliasEnv Example.aliasOptions)
                  (or_introl Hout))).
Defined.




(** ** The outcome of a run *)

Section outcome.
Variable env : Env.
Variable options : Options.t.

(** All the ways through [finish], once more. *)
Local Ltac finish_cases st :=
  destruct st as [out ref [] p [] sto held sent];
  unfold finish, unlinks, unlinkMessage;
  destruct (outputRefPath options) as [path|];
  destruct (unlink_error env) as [err|];
  lazy beta iota zeta delta
    [write output_end withStorage withStreams openStreams withPromise reject
     prependOutput sendMessage removeCloseResolver outputString
     outputRefString wroteToOutputRef promise closeResolver storage streams
     messages negb default from_option id];
  try reflexivity.

Lemma finish_messages st :
  messages (finish env options st) =
  messages st ++
  match outputRefPath options, unlink_error env with
  | Some path, Some err =>
      if wroteToOutputRef st then [] else [unlinkMessage path err]
  | _, _ => []
  end.
Proof. finish_cases st; by rewrite app_nil_r. Qed.

Lemma finish_storage_other st path :
  path ≠ Options.out options → outputRefPath options ≠ Some path →
  streams st !! path = None →
  storage (finish env options st) !! path = storage st !! path.
Proof.
  intros Hout Href Hnone. rewrite finish_storage. cbv zeta.
  destruct (outputRefPath options) as [ref|].
  - assert (ref ≠ path) by congruence.
    destruct (wroteToOutputRef st); [|destruct (unlink_error env)];
      rewrite lookup_union_r; rewrite ?lookup_alter_ne by done; try done.
    by rewrite lookup_delete_ne.
  - rewrite lookup_union_r; by rewrite ?lookup_alter_ne.
Qed.

(** X13. The promise of a run always settles. It is resolved exactly when
    no source file fails and the deletion of the auxiliary file, if the run
    comes to it (an auxiliary file was opened and nothing hoisted into it),
    does not fail. *)
Theorem generate_settles :
  promise (generate env options) ≠ Pending
  ∧ (promise (generate env options) = Resolved ↔
     failure env options = None
     ∧ (unlink_error env = None
        ∨ outputRefPath options = None
        ∨ hoistedLines env options ≠ [])).
Proof.
  rewrite generate_promise. unfold unlinks. cbn [collected wroteToOutputRef].
  destruct (failure env options) as [sf|].
  { split; [done|]. split; [done | by intros [? _]]. }
  destruct (unlink_error env) as [err|].
  2: { split; [done|]. split; [|done]. intros _. split; [done | by left]. }
  destruct (outputRefPath options) as [path|].
  2: { split; [done|]. split; [|done]. intros _. split; [done|].
       right. by left. }
  destruct (hoistedLines env options) as [|l ls]; cbn [nonEmpty negb].
  - split; [done|]. split; [done|]. by intros (_ & [?|[?|?]]).
  - split; [done|]. split; [|done]. intros _. split; [done|].
    right. by right.
Qed.

(** X14. A run changes no file but its two outputs: every other path
    holds after the run what it held before. *)
Theorem generate_storage_frame (path : string) :
  path ≠ Options.out options → outputRefPath options ≠ Some path →
  storage (generate env options) !! path = storage0 env !! path.
Proof.
  intros Hout Href. rewrite generate_collected.
  rewrite finish_storage_other; [done | done | done |].
  cbn [collected streams]. unfold opened.
  destruct (outputRefPath options) as [ref|].
  - rewrite !lookup_insert_ne by congruence. apply lookup_empty.
  - rewrite lookup_insert_ne by done. apply lookup_empty.
Qed.


(** X16. What [sendMessage] receives in a run: a message per extern, a
    message per source file that is selected, up to the first that fails,
    the message of the alias, and, when the deletion of the auxiliary file
    fails, its message; nothing for a file that is skipped or comes after a
    failure. *)
Theorem generate_messages :
  messages (generate env options) =
  map (λ path, "Writing external dependency " +:+ path)
      (default [] (Options.externs options))
  ++ map (λ sf, "Processing " +:+ fileName sf)
       (filter (λ sf, selected env options sf = true)
               (reached env options (getSourceFiles (program env options))))
  ++ match Options.main options with
     | Some main =>
         if bool_decide (main = "") then []
         else ["Aliased main module " +:+ Options.name options +:+
               " to " +:+ main]
     | None => []
     end
  ++ match outputRefPath options, unlink_error env, hoistedLines env options with
     | Some path, Some err, [] => [unlinkMessage path err]
     | _, _, _ => []
     end.
Proof.
  rewrite generate_collected, finish_messages.
  cbn [collected messages wroteToOutputRef]. unfold sentMessages.
  rewrite <- !app_assoc. do 3 f_equal.
  destruct (outputRefPath options); [|done].
  destruct (unlink_error env); [|done].
  by destruct (hoistedLines env options).
Qed.

(** X17. When [out] does not end in [.d.ts] no auxiliary file is opened:
    the reference directives of the units are dropped, the main buffer holds
    the externs, the blocks and the alias, nothing is deleted, and the run
    succeeds exactly when no source file fails. *)
Theorem generate_without_auxiliary :
  JsString.endsWith_d_ts (Options.out options) = false →
  outputRefString (generate env options) = ""
  ∧ wroteToOutputRef (generate env options) = false
  ∧ outputString (generate env options) =
    externLines env options +:+
    JsString.concat (map (unitBlock env options) (units env options)) +:+
    aliasPart env options
  ∧ (promise (generate env options) = Resolved ↔ failure env options = None).
Proof.
  intros Hsuffix.
  assert (outputRefPath options = None) as Hnone
    by (unfold outputRefPath; by rewrite Hsuffix).
  pose proof (hoistedLines_none env options Hnone) as Hlines.
  split_and!.
  - by rewrite generate_outputRefString, Hlines.
  - by rewrite generate_wroteToOutputRef, Hlines.
  - rewrite generate_outputString. unfold auxiliaryDirective.
    by rewrite Hlines.
  - rewrite generate_promise. unfold unlinks. rewrite Hnone.
    destruct (failure env options); [done|].
    by destruct (unlink_error env).
Qed.

(** X18. [writeDeclaration] touches neither the promise nor the storage
    nor the messages; and for a unit that is not an external module it
    leaves the RefBuffer and its flag alone, whatever the unit references. *)
Theorem writeDeclaration_frame (declarationFile : SourceFile) (st : State) :
  promise (writeDeclaration env options declarationFile st) = promise st
  ∧ storage (writeDeclaration env options declarationFile st) = storage st
  ∧ messages (writeDeclaration env options declarationFile st) = messages st
  ∧ closeResolver (writeDeclaration env options declarationFile st)
    = closeResolver st
  ∧ (externalModuleIndicator declarationFile = false →
     outputRefString (writeDeclaration env options declarationFile st)
       = outputRefString st
     ∧ wroteToOutputRef (writeDeclaration env options declarationFile st)
       = wroteToOutputRef st).
Proof.
  rewrite writeDeclaration_advance. unfold advance.
  cbn [promise storage messages closeResolver outputRefString
       wroteToOutputRef rejecting].
  split_and!; [done | done | by rewrite app_nil_r | done |].
  intros Hglobal. unfold hoisted. rewrite Hglobal.
  cbn [JsString.concat nonEmpty]. by rewrite app_nil_r_s, orb_false_r.
Qed.

End outcome.

Lemma generate_storage_frame_witness :
  "README.md" ≠ Options.out Example.abOptions
  ∧ outputRefPath Example.abOptions ≠ Some "README.md"
  ∧ storage (generate Example.abEnv Example.abOptions) !! "README.md" =
    storage0 Example.abEnv !! "README.md".
Proof.
  assert ("README.md" ≠ Options.out Example.abOptions) as Hout by discriminate.
  assert (outputRefPath Example.abOptions ≠ Some "README.md") as Href
    by (vm_compute; discriminate).
  split; [exact Hout|]. split; [exact Href|].
  exact (generate_storage_frame Example.abEnv Example.abOptions "README.md"
           Hout Href).
Defined.


(** The auxiliary file of the package with [c.d.ts], and of the package
    without a hoisted directive when the deletion fails. *)
Example auxiliary_file_contents :
  auxiliaryFile Example.externOptions
    (generate Example.externEnv Example.externOptions) =
    Some (referenceDirective "../typings/t.d.ts" +:+ LF)
  ∧ auxiliaryFile Example.plainOptions
      (generate (Example.env [Example.a_d_ts] (Some Example.EPERM))
                Example.plainOptions) = Some "".
Proof. split; vm_compute; reflexivity. Qed.

Lemma generate_without_auxiliary_witness :
  JsString.endsWith_d_ts (Options.out Example.txtOptions) = false
  ∧ outputRefString (generate Example.externEnv Example.txtOptions) = ""
  ∧ wroteToOutputRef (generate Example.externEnv Example.txtOptions) = false.
Proof.
  assert (JsString.endsWith_d_ts (Options.out Example.txtOptions) = false)
    as Hsuffix by (vm_compute; reflexivity).
  destruct (generate_without_auxiliary Example.externEnv Example.txtOptions
              Hsuffix) as (Href & Hwrote & _).
  split; [exact Hsuffix|]. split; [exact Href | exact Hwrote].
Defined.

Lemma writeDeclaration_frame_witness :
  externalModuleIndicator Example.a_d_ts = false
  ∧ outputRefString
      (writeDeclaration Example.abEnv Example.abOptions Example.a_d_ts
         (collected Example.aliasEnv Example.aliasOptions)) =
    outputRefString (collected Example.aliasEnv Example.aliasOptions).
Proof.
  split; [reflexivity|].
  exact (proj1 (proj2 (proj2 (proj2 (proj2
           (writeDeclaration_frame Example.abEnv Example.abOptions
              Example.a_d_ts (collected Example.aliasEnv Example.aliasOptions)))))
           eq_refl)).
Defined.

(** ** Options that are given but empty, and what cleanup cannot change *)

(** X19. A [main] that is the empty string is a [main] that is not given,
    and an empty list of externs is a list that is not given: the runs are
    the same, messages included. *)
Theorem empty_options_ignored (env : Env)
    (baseDir : string) (files : list string) (excludes : option (list string))
    (externs : option (list string)) (eol indent main : option string)
    (name out : string) :
  generate env
    {| Options.baseDir := baseDir; Options.files := files;
       Options.excludes := excludes; Options.externs := externs;
       Options.eol := eol; Options.indent := indent;
       Options.main := Some ""; Options.name := name; Options.out := out |}
  = generate env
      {| Options.baseDir := baseDir; Options.files := files;
         Options.excludes := excludes; Options.externs := externs;
         Options.eol := eol; Options.indent := indent;
         Options.main := None; Options.name := name; Options.out := out |}
  ∧ generate env
      {| Options.baseDir := baseDir; Options.files := files;
         Options.excludes := excludes; Options.externs := Some [];
         Options.eol := eol; Options.indent := indent;
         Options.main := main; Options.name := name; Options.out := out |}
    = generate env
        {| Options.baseDir := baseDir; Options.files := files;
           Options.excludes := excludes; Options.externs := None;
           Options.eol := eol; Options.indent := indent;
           Options.main := main; Options.name := name; Options.out := out |}
  ∧ generate env
      {| Options.baseDir := baseDir; Options.files := files;
         Options.excludes := Some []; Options.externs := externs;
         Options.eol := eol; Options.indent := indent;
         Options.main := main; Options.name := name; Options.out := out |}
    = generate env
        {| Options.baseDir := baseDir; Options.files := files;
           Options.excludes := None; Options.externs := externs;
           Options.eol := eol; Options.indent := indent;
           Options.main := main; Options.name := name; Options.out := out |}.
Proof. split_and!; reflexivity. Qed.

(** X20. Whether the deletion of the auxiliary file fails or not makes no
    difference to the main file: it holds the whole bundle either way. *)
Theorem mainFile_whatever_unlink (pathUtil : PathUtil) (os_EOL : string)
    (ts : Compiler) (storage0 : gmap string string)
    (error error' : option Error) (options : Options.t) :
  mainFile options
    (generate {| env_pathUtil := pathUtil; os_EOL := os_EOL; env_ts := ts;
                 storage0 := storage0; unlink_error := error |} options)
  = mainFile options
      (generate {| env_pathUtil := pathUtil; os_EOL := os_EOL; env_ts := ts;
                   storage0 := storage0; unlink_error := error' |} options).
Proof.
  rewrite !generate_mainFile, !generate_outputString. reflexivity.
Qed.

(** ** Containment in the base directory *)

Lemma prefix_app (a b : string) : String.prefix a (a +:+ b) = true.
Proof.
  induction a as [|x a IH]; [by destruct b|]. rewrite app_cons_s. cbn.
  by destruct (ascii_dec x x).
Qed.

(** X21. Containment in the base directory is a test on characters: a
    declaration file whose normalized name begins with the characters of the
    base directory, and which no exclusion names, is bundled, whether or not
    a separator follows the base directory in its name; its module
    identifier is the package name followed by whatever follows. *)
Theorem containment_by_characters (env : Env) (options : Options.t)
    (sourceFile : SourceFile) (stem : string) (st : State) :
  fileName sourceFile = baseDir env options +:+ stem +:+ ".d.ts" →
  normalize (env_pathUtil env) (fileName sourceFile) = fileName sourceFile →
  (∀ filename, filename ∈ default [] (Options.excludes options) →
     filenameToMid (env_pathUtil env)
       (resolve (env_pathUtil env) [baseDir env options; filename]) ≠
     filenameToMid (env_pathUtil env) (fileName sourceFile)) →
  processSourceFile env options sourceFile st =
    (writeDeclaration env options sourceFile
       (sendMessage ("Processing " +:+ fileName sourceFile) st), false)
  ∧ sourceModuleId env options sourceFile =
    Options.name options +:+ filenameToMid (env_pathUtil env) stem.
Proof.
  intros Hname Hnormal Hexcluded. split.
  - unfold processSourceFile. rewrite Hnormal, excludesMap_lookup_eq.
    rewrite (bool_decide_false (Exists _ _)).
    2: { intros (f & Hf & Heq)%Exists_exists. by apply (Hexcluded f). }
    rewrite (bool_decide_false (None = Some true)) by done.
    assert (JsString.startsWith (baseDir env options) (fileName sourceFile)
            = true) as ->.
    { rewrite Hname. apply prefix_app. }
    assert (JsString.endsWith_d_ts (fileName sourceFile) = true) as ->.
    { rewrite Hname, <- app_assoc_s. apply endsWith_d_ts_app. }
    done.
  - unfold sourceModuleId. by rewrite Hname, slice_stem.
Qed.

Lemma containment_by_characters_witness :
  fileName Example.x_d_ts =
    baseDir Example.abEnv Example.abOptions +:+ "2/x" +:+ ".d.ts"
  ∧ normalize (env_pathUtil Example.abEnv) (fileName Example.x_d_ts) =
    fileName Example.x_d_ts
  ∧ sourceModuleId Example.abEnv Example.abOptions Example.x_d_ts = "pkg2/x".
Proof.
  assert (fileName Example.x_d_ts =
          baseDir Example.abEnv Example.abOptions +:+ "2/x" +:+ ".d.ts")
    as Hname by (vm_compute; reflexivity).
  assert (normalize (env_pathUtil Example.abEnv) (fileName Example.x_d_ts) =
          fileName Example.x_d_ts) as Hnormal by (vm_compute; reflexivity).
  split; [exact Hname|]. split; [exact Hnormal|].
  destruct (containment_by_characters Example.abEnv Example.abOptions
              Example.x_d_ts "2/x"
              (collected Example.aliasEnv Example.aliasOptions) Hname Hnormal)
    as [_ Hid].
  { intros filename Hin. cbn in Hin. by apply elem_of_nil in Hin. }
  rewrite Hid. vm_compute. reflexivity.
Defined.
